(** * home-teacher-core: the debug-log patcher and unpatcher

    A shallow embedding of the two text-rewriting scripts
    [add_debug_logs_v2.py] (the Patcher) and [remove_debug_logs.py] (the
    Unpatcher), ignoring file I/O: each script is a function from the
    content of the target file to its new content.

    A Python [str] is a sequence of Unicode code points, so a text is a
    list of code points ([N]).  The operations the scripts use
    ([in], [str.replace], [str.split], [str.join], [str.count], [re.sub])
    are embedded as total functions on such lists: none of them can raise
    on the arguments the scripts pass. *)

From Stdlib Require Import List NArith ZArith Arith Bool Lia String Ascii.
Import ListNotations.

(** ** Texts *)

Definition char := N.
Definition str := list char.

Module Utf8.

(** The scripts are UTF-8 encoded Python source files; their string
    literals are written below as Rocq strings (the same UTF-8 bytes)
    and decoded to code points. *)

Fixpoint bytes (s : string) : list N :=
  match s with
  | EmptyString => []
  | String a s' => N_of_ascii a :: bytes s'
  end.

Definition cont (b : N) : N := b - 128.

Fixpoint decode (bs : list N) : str :=
  match bs with
  | [] => []
  | b :: bs1 =>
      if b <? 128 then b :: decode bs1
      else match bs1 with
           | [] => [b]
           | c1 :: bs2 =>
               if b <? 224 then ((b - 192) * 64 + cont c1) :: decode bs2
               else match bs2 with
                    | [] => [b]
                    | c2 :: bs3 =>
                        if b <? 240
                        then ((b - 224) * 4096 + cont c1 * 64 + cont c2)
                               :: decode bs3
                        else match bs3 with
                             | [] => [b]
                             | c3 :: bs4 =>
                                 ((b - 240) * 262144 + cont c1 * 4096
                                  + cont c2 * 64 + cont c3) :: decode bs4
                             end
                    end
           end
  end%N.

End Utf8.

(** [txt "..."] is the text of a Python string literal; [py "..."] is
    the same text, decoded once and for all. *)
Definition txt (lit : string) : str := Utf8.decode (Utf8.bytes lit).

Abbreviation py lit :=
  (ltac:(let v := eval vm_compute in (txt lit) in exact v)) (only parsing).

Definition ch (a : ascii) : char := N_of_ascii a.

Definition NL : char := 10%N.
Definition nl : str := [NL].
Definition spaces (n : nat) : str := repeat 32%N n.

(** ** The [str] operations of Python used by the scripts *)

Definition eq_str (a b : str) : bool :=
  if list_eq_dec N.eq_dec a b then true else false.

(** [startswith p t]: [t.startswith(p)]. *)
Fixpoint startswith (p t : str) : bool :=
  match p, t with
  | [], _ => true
  | _ :: _, [] => false
  | a :: p', b :: t' => (a =? b)%N && startswith p' t'
  end.

(** [contains m t]: the test [m in t] (substring). *)
Fixpoint contains (m t : str) : bool :=
  startswith m t ||
  match t with
  | [] => false
  | _ :: t' => contains m t'
  end.

(** [count c t]: [t.count(c)] for a one-character [c]. *)
Definition count (c : char) (t : str) : nat :=
  List.length (filter (N.eqb c) t).

(** [split_nl t]: [t.split('\n')]; never empty, [''.split('\n') == ['']]. *)
Fixpoint split_nl (t : str) : list str :=
  match t with
  | [] => [[]]
  | c :: t' =>
      if (c =? NL)%N then [] :: split_nl t'
      else match split_nl t' with
           | [] => [[c]]
           | l :: ls => (c :: l) :: ls
           end
  end.

(** [join_nl ls]: ['\n'.join(ls)]. *)
Fixpoint join_nl (ls : list str) : str :=
  match ls with
  | [] => []
  | [l] => l
  | l :: ls' => l ++ NL :: join_nl ls'
  end.

(** ** Left-to-right, non-overlapping replacement

    [str.replace] and [re.sub] share one scanning discipline: try a match
    at the current position; on success emit the replacement and resume
    right after the matched text, otherwise copy one character and move
    on.  [find prev t] is the length of the match starting at [t], whose
    preceding character is [prev]; [repl m] is the replacement for the
    matched text [m].  [skip] counts the characters of the current match
    still to be passed over, which keeps the recursion structural.  After
    an empty match one character is copied, as both Python functions
    do. *)

Section Scan.

Variable find : option char -> str -> option nat.
Variable repl : str -> str.

Fixpoint scan_go (skip : nat) (prev : option char) (t : str) : str :=
  match skip with
  | S k =>
      match t with
      | [] => []
      | c :: t' => scan_go k (Some c) t'
      end
  | O =>
      match find prev t with
      | Some n =>
          repl (firstn n t) ++
          match t with
          | [] => []
          | c :: t' =>
              match n with
              | O => c :: scan_go 0 (Some c) t'
              | S k => scan_go k (Some c) t'
              end
          end
      | None =>
          match t with
          | [] => []
          | c :: t' => c :: scan_go 0 (Some c) t'
          end
      end
  end.

Definition scan (t : str) : str := scan_go 0 None t.

End Scan.

(** [replace old new t]: [t.replace(old, new)]. *)
Definition find_lit (old : str) (_ : option char) (t : str) : option nat :=
  if startswith old t then Some (List.length old) else None.

Definition replace (old new t : str) : str :=
  scan (find_lit old) (fun _ => new) t.

(** ** Regular expressions

    The three patterns of the scripts are sequences of: a literal
    character, one character of a class, a greedy [*] or [+] over a
    class, a lazy [*?] over a class; one of them starts with [^] under
    [re.MULTILINE].  The matcher is the backtracking matcher of Python's
    [re]: a greedy repetition first takes as many characters as it can and
    gives them back one at a time, a lazy one first takes none and takes
    one more each time the rest of the pattern fails. *)

Inductive atom : Type :=
| Lit (c : char)                 (* an (escaped) literal character *)
| Cls (p : char -> bool)         (* one character of a class *)
| Star (p : char -> bool)        (* [p*] *)
| Plus (p : char -> bool)        (* [p+] *)
| LazyStar (p : char -> bool).   (* [p*?] *)

Record pattern : Type := Pattern {
  bol : bool;            (* the pattern starts with [^] under MULTILINE *)
  body : list atom
}.

(** [\s] on a [str] pattern: the characters for which [str.isspace()]
    holds (CPython's [_PyUnicode_IsWhitespace]). *)
Definition is_space (c : char) : bool :=
  ((9 <=? c) && (c <=? 13) || (28 <=? c) && (c <=? 32)
   || (c =? 133) || (c =? 160) || (c =? 5760)
   || (8192 <=? c) && (c <=? 8202)
   || (c =? 8232) || (c =? 8233) || (c =? 8239) || (c =? 8287)
   || (c =? 12288))%N.

Definition not_char (x : char) (c : char) : bool := negb (c =? x)%N.

(** [.] under [re.DOTALL]. *)
Definition any_char (_ : char) : bool := true.

Definition lits (t : str) : list atom := map Lit t.

Section Matcher.

(** [k] is the matcher of the rest of the pattern. *)
Variable p : char -> bool.
Variable k : str -> option nat.

Fixpoint greedy (t : str) : option nat :=
  match t with
  | c :: t' =>
      if p c then
        match greedy t' with
        | Some n => Some (S n)
        | None => k t
        end
      else k t
  | [] => k t
  end.

Fixpoint lazy (t : str) : option nat :=
  match k t with
  | Some n => Some n
  | None =>
      match t with
      | c :: t' => if p c then option_map S (lazy t') else None
      | [] => None
      end
  end.

Definition one (k1 : str -> option nat) (t : str) : option nat :=
  match t with
  | c :: t' => if p c then option_map S (k1 t') else None
  | [] => None
  end.

End Matcher.

(** [re_match r t]: the length of the match of [r] at the start of [t],
    if there is one. *)
Fixpoint re_match (r : list atom) : str -> option nat :=
  match r with
  | [] => fun _ => Some 0
  | Lit c :: r' => one (N.eqb c) (re_match r')
  | Cls p :: r' => one p (re_match r')
  | Star p :: r' => greedy p (re_match r')
  | Plus p :: r' => one p (greedy p (re_match r'))
  | LazyStar p :: r' => lazy p (re_match r')
  end.

(** [^] under MULTILINE holds at the start of the text and after a
    newline. *)
Definition at_line_start (prev : option char) : bool :=
  match prev with
  | None => true
  | Some c => (c =? NL)%N
  end.

Definition match_at (pat : pattern) (prev : option char) (t : str)
  : option nat :=
  if bol pat && negb (at_line_start prev) then None
  else re_match (body pat) t.

(** [re_sub pat repl t]: [re.sub(pat, repl, t)], [repl] mapping the
    matched text to its replacement. *)
Definition re_sub (pat : pattern) (repl : str -> str) (t : str) : str :=
  scan (match_at pat) repl t.

(** ** The Patcher: [add_debug_logs_v2.py] *)

Module Patcher.

Definition mount_log : str :=
  nl ++ py "    // マウント確認用"
  ++ nl ++ py "    useEffect(() => {"
  ++ nl ++ py "        addDebugLog('🚀 PDFPane Mounted')"
  ++ nl ++ py "        return () => addDebugLog('💀 PDFPane Unmounted')"
  ++ nl ++ py "    }, [])"
  ++ nl.

(** The pattern of rule 1,
    [(const addDebugLog = \(msg: string\) => \{[^}]+\n\s+console\.log\(msg\)\n\s+\})].
    Its only group encloses the whole pattern, so [\1] in the
    replacement template is the matched text. *)
Definition mount_anchor : pattern :=
  Pattern false
    (lits (py "const addDebugLog = (msg: string) => {")
     ++ [Plus (not_char (ch "}")); Lit NL; Plus is_space]
     ++ lits (py "console.log(msg)")
     ++ [Lit NL; Plus is_space; Lit (ch "}")]).

(** The template [r'\1' + mount_log]: [mount_log] has no backslash. *)
Definition mount_repl (m : str) : str := m ++ mount_log.

(** A rule: its detection marker and its rewriting of the content. *)
Definition guarded (marker : str) (rewrite : str -> str) (content : str)
  : str :=
  if contains marker content then content else rewrite content.

Definition marker1 : str := py "🚀 PDFPane Mounted".

Definition rule1 : str -> str :=
  guarded marker1 (re_sub mount_anchor mount_repl).

Definition marker2 : str := py "🔍 Check: Ref=".
Definition anchor2 : str :=
  py "addDebugLog(`✅ Valid tap, gap=${timeSinceLastTap}ms`)".
Definition new2 : str :=
  py "addDebugLog(`✅ Valid tap, gap=${timeSinceLastTap}ms`)"
  ++ nl ++ spaces 28
  ++ py "addDebugLog(`🔍 Check: Ref=${lastTwoFingerTapTime.current}, Now=${now}`)".

Definition marker3 : str := py "🔄 Undo Reset".
Definition anchor3 : str := py "addDebugLog('🎉 DOUBLE TAP SUCCESS!')".
Definition new3 : str :=
  py "addDebugLog('🎉 DOUBLE TAP SUCCESS!')"
  ++ nl ++ spaces 32
  ++ py "addDebugLog(`🔄 Undo Reset. Was: ${lastTwoFingerTapTime.current}`)".

Definition marker4 : str := py "💾 Set Ref".
Definition anchor4 : str := py "addDebugLog('📝 First tap recorded')".
Definition new4 : str :=
  py "addDebugLog('📝 First tap recorded')"
  ++ nl ++ spaces 32
  ++ py "addDebugLog(`💾 Set Ref. Was: ${lastTwoFingerTapTime.current} -> New: ${now}`)".

Definition marker5 : str := py "🗑️ Timeout Reset".
Definition anchor5 : str := py "addDebugLog('⏱️ Timeout - reset')".
Definition new5 : str :=
  py "addDebugLog('⏱️ Timeout - reset')"
  ++ nl ++ spaces 36
  ++ py "addDebugLog(`🗑️ Timeout Reset. Was: ${lastTwoFingerTapTime.current}`)".

Definition rule2 : str -> str := guarded marker2 (replace anchor2 new2).
Definition rule3 : str -> str := guarded marker3 (replace anchor3 new3).
Definition rule4 : str -> str := guarded marker4 (replace anchor4 new4).
Definition rule5 : str -> str := guarded marker5 (replace anchor5 new5).

(** The script: the five rules in order. *)
Definition patch (content : str) : str :=
  rule5 (rule4 (rule3 (rule2 (rule1 content)))).

End Patcher.

(** ** The Unpatcher: [remove_debug_logs.py] *)

Module Unpatcher.

(** [^\s*addDebugLog\([^)]+\)\s*\n] with [re.MULTILINE]. *)
Definition line_pattern : pattern :=
  Pattern true
    ([Star is_space]
     ++ lits (py "addDebugLog(")
     ++ [Plus (not_char (ch ")")); Lit (ch ")"); Star is_space; Lit NL]).

(** [debug_display_pattern], with [re.DOTALL]. *)
Definition debug_display_pattern : pattern :=
  Pattern false
    ([Star is_space]
     ++ lits (py "{/* Debug Log Display (iPad用) */}")
     ++ [LazyStar any_char]
     ++ lits (py "{debugLogs.map((log, i) => (")
     ++ [LazyStar any_char; Lit NL; Star is_space]
     ++ lits (py "))}")
     ++ [Star is_space]
     ++ lits (py "</div>")
     ++ [Star is_space]
     ++ lits (py ")}")
     ++ [Star is_space; Lit NL]).

Definition remove (_ : str) : str := [].

Definition display_marker : str := py "Debug Log Display".
Definition length_marker : str := py "debugLogs.length".

Definition is_marker (line : str) : bool :=
  contains display_marker line || contains length_marker line.

(** The state of the fallback loop. *)
Record scan_state : Type := ScanState {
  skip_until_close : Z;
  new_lines : list str
}.

Definition brace_delta (line : str) : Z :=
  Z.of_nat (count (ch "{") line) - Z.of_nat (count (ch "}") line).

(** One iteration of [for i, line in enumerate(lines)]. *)
Definition scan_step (st : scan_state) (line : str) : scan_state :=
  if is_marker line then ScanState 1 (new_lines st)
  else if (skip_until_close st >? 0)%Z then
    let n := (skip_until_close st + brace_delta line)%Z in
    ScanState (if (n <=? 0)%Z then 0%Z else n) (new_lines st)
  else ScanState (skip_until_close st) (new_lines st ++ [line]).

Definition scan_init : scan_state := ScanState 0 [].

Definition fallback_scan (lines : list str) : list str :=
  new_lines (fold_left scan_step lines scan_init).

(** The script. *)
Definition unpatch (content : str) : str :=
  let content := re_sub line_pattern remove content in
  let content := re_sub debug_display_pattern remove content in
  if contains length_marker content
  then join_nl (fallback_scan (split_nl content))
  else content.

End Unpatcher.

(** ** Notions used to state the properties *)

(** [occurs m t]: [m] is a substring of [t]. *)
Definition occurs (m t : str) : Prop := exists u v, t = u ++ m ++ v.

(** The character before the position reached after reading [w]. *)
Definition last_char (prev : option char) (w : str) : option char :=
  fold_left (fun _ c => Some c) w prev.

(** [found find prev t]: some position of [t] has a match, as
    [re.search] would report. *)
Fixpoint found (find : option char -> str -> option nat)
  (prev : option char) (t : str) : bool :=
  match find prev t with
  | Some _ => true
  | None =>
      match t with
      | [] => false
      | c :: t' => found find (Some c) t'
      end
  end.

Definition re_search (pat : pattern) (t : str) : bool :=
  found (match_at pat) None t.

(** [subseq a b]: the characters of [a] appear in [b], in order. *)
Inductive subseq : str -> str -> Prop :=
| subseq_nil : subseq [] []
| subseq_skip c a b : subseq a b -> subseq a (c :: b)
| subseq_keep c a b : subseq a b -> subseq (c :: a) (c :: b).

(** The language of a pattern body: [denotes r w] when the text [w] as a
    whole is matched by [r]. *)
Fixpoint denotes (r : list atom) (w : str) : Prop :=
  match r with
  | [] => w = []
  | Lit c :: r' => exists w', w = c :: w' /\ denotes r' w'
  | Cls p :: r' => exists c w', w = c :: w' /\ p c = true /\ denotes r' w'
  | Star p :: r' | LazyStar p :: r' =>
      exists a b, w = a ++ b /\ forallb p a = true /\ denotes r' b
  | Plus p :: r' =>
      exists c a b,
        w = c :: a ++ b /\ p c = true /\ forallb p a = true /\ denotes r' b
  end.

(** The five rules of the Patcher as a table: the detection marker, the
    anchor search, the text inserted after each match of the anchor. *)
Module Rules.
Import Patcher.

Inductive rule_id : Type := Rule1 | Rule2 | Rule3 | Rule4 | Rule5.

Definition all_rules : list rule_id := [Rule1; Rule2; Rule3; Rule4; Rule5].

Definition marker (r : rule_id) : str :=
  match r with
  | Rule1 => marker1 | Rule2 => marker2 | Rule3 => marker3
  | Rule4 => marker4 | Rule5 => marker5
  end.

Definition anchor_find (r : rule_id) : option char -> str -> option nat :=
  match r with
  | Rule1 => match_at mount_anchor
  | Rule2 => find_lit anchor2
  | Rule3 => find_lit anchor3
  | Rule4 => find_lit anchor4
  | Rule5 => find_lit anchor5
  end.

(** What a rule adds after its anchor: the replacement without the
    anchor it repeats. *)
Definition inserted (r : rule_id) : str :=
  match r with
  | Rule1 => mount_log
  | Rule2 => skipn (List.length anchor2) new2
  | Rule3 => skipn (List.length anchor3) new3
  | Rule4 => skipn (List.length anchor4) new4
  | Rule5 => skipn (List.length anchor5) new5
  end.

(** The rewriting of a rule, without its guard. *)
Definition rewrite (r : rule_id) : str -> str :=
  match r with
  | Rule1 => re_sub mount_anchor mount_repl
  | Rule2 => replace anchor2 new2
  | Rule3 => replace anchor3 new3
  | Rule4 => replace anchor4 new4
  | Rule5 => replace anchor5 new5
  end.

Definition apply (r : rule_id) : str -> str :=
  guarded (marker r) (rewrite r).

(** [anchor_found r t]: the anchor of [r] is somewhere in [t]. *)
Definition anchor_found (r : rule_id) (t : str) : bool :=
  match r with
  | Rule1 => re_search mount_anchor t
  | Rule2 => contains anchor2 t
  | Rule3 => contains anchor3 t
  | Rule4 => contains anchor4 t
  | Rule5 => contains anchor5 t
  end.

(** [first_match r u rest n]: scanning [u ++ rest], the first match of
    the anchor of [r] starts right after [u] and is [n] characters
    long. *)
Definition first_match (r : rule_id) (u rest : str) (n : nat) : Prop :=
  (forall u1 u2, u = u1 ++ u2 -> u2 <> [] ->
     anchor_find r (last_char None u1) (u2 ++ rest) = None)
  /\ anchor_find r (last_char None u) rest = Some n.

(** Following the spec: the inserted text goes after the first
    occurrence of the anchor only. *)
Fixpoint insert_at_first (find : option char -> str -> option nat)
  (ins : str) (prev : option char) (t : str) : str :=
  match find prev t with
  | Some n => firstn n t ++ ins ++ skipn n t
  | None =>
      match t with
      | [] => []
      | c :: t' => c :: insert_at_first find ins (Some c) t'
      end
  end.

Definition spec_apply (r : rule_id) (t : str) : str :=
  if contains (marker r) t then t
  else insert_at_first (anchor_find r) (inserted r) None t.

End Rules.

(** The fallback loop, run from a given state. *)
Module Scan.
Import Unpatcher.

Definition run (st : scan_state) (lines : list str) : scan_state :=
  fold_left scan_step lines st.

(** The counter after [lines], entered while skipping at depth [k]. *)
Definition counter_after (k : Z) (lines : list str) : Z :=
  skip_until_close (run (ScanState k []) lines).

Definition brace_sum (lines : list str) : Z :=
  fold_right (fun line d => (brace_delta line + d)%Z) 0%Z lines.

(** Following the claim on brace balance: from a marker line on, lines
    are removed through the line at which the cumulative brace count of
    the block is back at the baseline; the lines of the block are only
    counted. *)
Fixpoint claimed_scan (depth : Z) (lines : list str) : list str :=
  match lines with
  | [] => []
  | line :: rest =>
      if (depth >? 0)%Z then
        let n := (depth + brace_delta line)%Z in
        claimed_scan (if (n <=? 0)%Z then 0%Z else n) rest
      else if is_marker line then claimed_scan 1 rest
      else line :: claimed_scan 0 rest
  end.

End Scan.

(** Sample texts. *)
Module Samples.

(** A display block one of whose inner lines mentions
    [debugLogs.length]. *)
Definition nested_marker_block : list str :=
  [ py "{debugLogs.length > 0 && (";
    py "  {debugLogs.map((log, i) => (";
    py "    <div>{debugLogs.length}: {log}</div>";
    py "  ))}";
    py ")}";
    py "keep" ].


(** The logging helper alone: the anchor of rule 1. *)
Definition helper_text : str :=
join_nl
  [ py "    const addDebugLog = (msg: string) => {";
    py "        setDebugLogs(prev => [...prev.slice(-19), msg])";
    py "        console.log(msg)";
    py "    }";
    [] ].

(** A component in which the five anchors are found, none of the markers
    is present and every block is balanced. *)
Definition canonical_text : str :=
join_nl
  [ py "function PDFPane() {";
    py "    const addDebugLog = (msg: string) => {";
    py "        setDebugLogs(prev => [...prev.slice(-19), msg])";
    py "        console.log(msg)";
    py "    }";
    py "    const onTap = (now: number) => {";
    py "        if (timeSinceLastTap < 300) {";
    py "            addDebugLog(`✅ Valid tap, gap=${timeSinceLastTap}ms`)";
    py "            addDebugLog('🎉 DOUBLE TAP SUCCESS!')";
    py "        } else {";
    py "            addDebugLog('📝 First tap recorded')";
    py "            setTimeout(() => {";
    py "                addDebugLog('⏱️ Timeout - reset')";
    py "            }, 300)";
    py "        }";
    py "    }";
    py "}";
    [] ].

(** A call of [addDebugLog] written over several lines, with an object
    argument. *)
Definition multiline_call : str :=
join_nl
  [ py "addDebugLog(";
    py "  fmt(debugLogs.length), {";
    py "  }";
    py ")";
    [] ].

Definition unmount_call : str := py "addDebugLog('💀 PDFPane Unmounted')".

Definition call_head : str := py "addDebugLog(".


End Samples.


(** [stops p t]: a run of [p] cannot go on into [t]. *)
Definition stops (q : char -> bool) (t : str) : Prop :=
  match t with
  | [] => True
  | c :: _ => q c = false
  end.

(** Texts written one statement per line.  A line is either a statement
    that calls [addDebugLog] -- indentation, [addDebugLog(], an argument
    without [)], and [)] -- or an ordinary line: not blank and without
    [addDebugLog(].  Every line ends with a newline. *)
Module Lines.
Import Patcher Rules.

Inductive line : Type :=
| Call (indent arg : str)
| Ordinary (x : str).

Definition call_head : str := Samples.call_head.

Definition text_of (l : line) : str :=
  match l with
  | Call indent arg => indent ++ call_head ++ arg ++ [ch ")"]
  | Ordinary x => x
  end.

Definition render (ls : list line) : str :=
  flat_map (fun l => text_of l ++ nl) ls.

Definition nonempty (t : str) : bool :=
  match t with
  | [] => false
  | _ :: _ => true
  end.

Definition well_formed (l : line) : bool :=
  match l with
  | Call indent arg =>
      forallb is_space indent && forallb (not_char NL) indent
      && nonempty arg
      && forallb (not_char (ch ")")) arg && forallb (not_char NL) arg
  | Ordinary x =>
      forallb (not_char NL) x && negb (forallb is_space x)
      && negb (contains call_head x)
  end.

Definition is_ordinary (l : line) : bool :=
  match l with
  | Call _ _ => false
  | Ordinary _ => true
  end.

(** The statement line that a literal rule inserts. *)
Definition inserted_line (r : rule_id) : line :=
  match r with
  | Rule1 => Ordinary []
  | Rule2 =>
      Call (spaces 28)
        (py "`🔍 Check: Ref=${lastTwoFingerTapTime.current}, Now=${now}`")
  | Rule3 =>
      Call (spaces 32)
        (py "`🔄 Undo Reset. Was: ${lastTwoFingerTapTime.current}`")
  | Rule4 =>
      Call (spaces 32)
        (py "`💾 Set Ref. Was: ${lastTwoFingerTapTime.current} -> New: ${now}`")
  | Rule5 =>
      Call (spaces 36)
        (py "`🗑️ Timeout Reset. Was: ${lastTwoFingerTapTime.current}`")
  end.

(** The literal anchor of a rule. *)
Definition anchor (r : rule_id) : str :=
  match r with
  | Rule1 => []
  | Rule2 => anchor2
  | Rule3 => anchor3
  | Rule4 => anchor4
  | Rule5 => anchor5
  end.

(** The lines after a literal rule has rewritten them. *)
Definition rewritten (r : rule_id) (ls : list line) : list line :=
  flat_map
    (fun l => if contains (anchor r) (text_of l)
              then [l; inserted_line r] else [l])
    ls.

Definition close : char := ch ")".

(** What the proofs need to know of the four literal rules. *)
Record literal_facts (r : rule_id) : Prop := LiteralFacts {
  lf_find : anchor_find r = find_lit (anchor r);
  lf_shape : exists A, anchor r = A ++ [close]
                       /\ forallb (not_char close) A = true;
  lf_nl : forallb (not_char NL) (anchor r) = true;
  lf_head : occurs call_head (anchor r);
  lf_ins : inserted r = NL :: text_of (inserted_line r);
  lf_wf : well_formed (inserted_line r) = true
}.

(** The search of the line-removal pass. *)
Definition line_find : option char -> str -> option nat :=
  match_at Unpatcher.line_pattern.

(** The text that follows a line starts with indentation without a
    newline, or is empty. *)
Definition led (t : str) : Prop :=
  exists w r, t = w ++ r /\ forallb is_space w = true
              /\ forallb (not_char NL) w = true /\ stops is_space r.

End Lines.

Module RoundTripSamples.
Import Lines.

(** A tap handler written one statement per line, with the anchor of
    rule 2 and that of rule 3. *)
Definition tap_handler : list line :=
  [ Ordinary (py "if (timeSinceLastTap < 300) {");
    Call (spaces 4) (py "`✅ Valid tap, gap=${timeSinceLastTap}ms`");
    Call (spaces 4) (py "'🎉 DOUBLE TAP SUCCESS!'");
    Ordinary (py "}") ].

End RoundTripSamples.

(** Texts obtained from one another by inserting [ins] right after some
    of the occurrences of the character [q]: what a literal rule does to
    a text, its anchor ending with [q]. *)
Module Insertion.

Inductive inserted_after (q : char) (ins : str) : str -> str -> Prop :=
| ia_nil : inserted_after q ins [] []
| ia_keep c t t' :
    inserted_after q ins t t' -> inserted_after q ins (c :: t) (c :: t')
| ia_ins t t' :
    inserted_after q ins t t' -> inserted_after q ins (q :: t) (q :: ins ++ t').

(** [no_overlap ins h]: no suffix of [ins] starts with [h] or starts
    [h]. *)
Fixpoint no_overlap (ins h : str) : bool :=
  match ins with
  | [] => true
  | c :: ins' =>
      negb (startswith ins h) && negb (startswith h ins) && no_overlap ins' h
  end.

(** [follows_clear q ins w]: in [w], what follows a [q] is not the start
    of [ins]. *)
Definition follows_clear (q : char) (ins w : str) : Prop :=
  forall w1 w2, w = w1 ++ q :: w2 -> w2 <> [] ->
    startswith w2 ins = false /\ startswith ins w2 = false.

(** [occurs_in L t]: a word of the language [L] is a substring of [t]. *)
Definition occurs_in (L : str -> Prop) (t : str) : Prop :=
  exists w u v, L w /\ t = u ++ w ++ v.

(** The words matched by the anchor of a rule. *)
Definition anchor_lang (r : Rules.rule_id) (w : str) : Prop :=
  match r with
  | Rules.Rule1 => denotes (body Patcher.mount_anchor) w
  | _ => w = Lines.anchor r
  end.

(** The first characters of every word matched by the anchor. *)
Definition anchor_head (r : Rules.rule_id) : str :=
  match r with
  | Rules.Rule1 => py "co"
  | _ => Lines.anchor r
  end.

(** A rule is settled on a text when applying it changes nothing: its
    marker is there or its anchor is not. *)
Definition settled (r : Rules.rule_id) (t : str) : Prop :=
  contains (Rules.marker r) t = true \/ Rules.anchor_found r t = false.

Definition rule_index (r : Rules.rule_id) : nat :=
  match r with
  | Rules.Rule1 => 1 | Rules.Rule2 => 2 | Rules.Rule3 => 3
  | Rules.Rule4 => 4 | Rules.Rule5 => 5
  end.

End Insertion.

(** The part of a text before, and after, the first [q]. *)
Fixpoint upto (q : char) (t : str) : str :=
  match t with
  | [] => []
  | c :: t' => if (c =? q)%N then [] else c :: upto q t'
  end.

Fixpoint after (q : char) (t : str) : str :=
  match t with
  | [] => []
  | c :: t' => if (c =? q)%N then t' else after q t'
  end.

Definition rbrace : char := ch "}".

(** The literal parts of the anchor of rule 1. *)
Definition mount_head : str := py "const addDebugLog = (msg: string) => {".
Definition mount_log_call : str := py "console.log(msg)".

(** [sublines a b]: the lines of [a] are lines of [b], in order. *)
Inductive sublines : list str -> list str -> Prop :=
| sublines_nil : sublines [] []
| sublines_skip l a b : sublines a b -> sublines a (l :: b)
| sublines_keep l a b : sublines a b -> sublines (l :: a) (l :: b).

(** The comment that opens the display block. *)
Definition display_comment : str := py "{/* Debug Log Display (iPad用) */}".

(** The last character of every match of the anchor of a rule. *)
Definition end_char (r : Rules.rule_id) : char :=
  match r with
  | Rules.Rule1 => rbrace
  | _ => Lines.close
  end.

(** What is left of a text for the line pattern to match, phase by
    phase: [line_ok] at the start of the pattern, [head_ok h] with [h]
    still to read of [addDebugLog(], [arg_ok] inside the argument,
    [tail_ok] after the closing parenthesis. *)
Module LineShape.
Import Lines.

Definition tail_ok (y : str) : Prop :=
  exists sp rest, y = sp ++ NL :: rest /\ forallb is_space sp = true.

Definition arg_ok (y : str) : Prop :=
  exists arg rest,
    y = arg ++ close :: rest
    /\ forallb (not_char close) arg = true /\ tail_ok rest.

Definition head_ok (h y : str) : Prop :=
  exists c y', y = h ++ c :: y' /\ not_char close c = true /\ arg_ok y'.

Definition line_ok (y : str) : Prop :=
  exists ws y',
    y = ws ++ y' /\ forallb is_space ws = true /\ head_ok call_head y'.

(** The line-removal pass, from a position whose preceding character is
    [prev]. *)
Definition line_pass (prev : option char) (t : str) : str :=
  scan_go line_find Unpatcher.remove 0 prev t.

End LineShape.

(** * Properties *)

(** ** Substrings *)

Lemma startswith_app (p r : str) : startswith p (p ++ r) = true.
Proof.
  induction p as [|a p IH]; simpl; [reflexivity|].
  now rewrite N.eqb_refl, IH.
Qed.

Lemma startswith_inv (p t : str) :
  startswith p t = true -> exists r, t = p ++ r.
Proof.
  revert t; induction p as [|a p IH]; intros t H; simpl in *.
  - now exists t.
  - destruct t as [|b t]; [discriminate|].
    apply andb_true_iff in H as [Hab H].
    apply N.eqb_eq in Hab; subst b.
    destruct (IH _ H) as [r ->]. now exists r.
Qed.

Lemma startswith_iff (p t : str) :
  startswith p t = true <-> exists r, t = p ++ r.
Proof.
  split; [apply startswith_inv|].
  intros [r ->]. apply startswith_app.
Qed.

Lemma contains_occurs (m t : str) : contains m t = true <-> occurs m t.
Proof.
  induction t as [|c t IH]; simpl.
  - rewrite orb_false_r, startswith_iff. split.
    + intros [r H]. exists [], r. exact H.
    + intros (u & v & H). destruct u; simpl in H.
      * now exists v.
      * discriminate.
  - rewrite orb_true_iff, startswith_iff, IH. split.
    + intros [[r H] | (u & v & H)].
      * exists [], r. exact H.
      * exists (c :: u), v. now rewrite H.
    + intros (u & v & H). destruct u as [|c' u]; simpl in H.
      * left. now exists v.
      * right. injection H as _ H. now exists u, v.
Qed.

Lemma contains_false (m t : str) : contains m t = false <-> ~ occurs m t.
Proof.
  rewrite <- contains_occurs. destruct (contains m t); split; intuition congruence.
Qed.

Lemma occurs_app_l (m t r : str) : occurs m t -> occurs m (t ++ r).
Proof.
  intros (u & v & ->). exists u, (v ++ r). now rewrite <- !app_assoc.
Qed.

Lemma occurs_app_r (m t l : str) : occurs m t -> occurs m (l ++ t).
Proof.
  intros (u & v & ->). exists (l ++ u), v. now rewrite <- !app_assoc.
Qed.

Lemma occurs_refl (m : str) : occurs m m.
Proof. exists [], []. now rewrite app_nil_r. Qed.

Lemma occurs_trans (a b c : str) : occurs a b -> occurs b c -> occurs a c.
Proof.
  intros (u & v & ->) (u' & v' & ->).
  exists (u' ++ u), (v ++ v'). now rewrite <- !app_assoc.
Qed.

Lemma last_char_app (prev : option char) (u v : str) :
  last_char prev (u ++ v) = last_char (last_char prev u) v.
Proof. unfold last_char. apply fold_left_app. Qed.

Lemma last_char_cons (prev : option char) (c : char) (u : str) :
  last_char prev (c :: u) = last_char (Some c) u.
Proof. reflexivity. Qed.

(** ** The scanning discipline *)

Section ScanFacts.

Variable find : option char -> str -> option nat.
Variable repl : str -> str.

Lemma scan_go_skip (k : nat) (prev : option char) (t : str) :
  k <= List.length t ->
  scan_go find repl k prev t
  = scan_go find repl 0 (last_char prev (firstn k t)) (skipn k t).
Proof.
  revert prev t; induction k as [|k IH]; intros prev t Hk.
  - reflexivity.
  - destruct t as [|c t]; simpl in Hk; [lia|].
    change (scan_go find repl (S k) prev (c :: t))
      with (scan_go find repl k (Some c) t).
    rewrite IH by lia. reflexivity.
Qed.

(** The two equations of the scan. *)
Lemma scan_go_miss (prev : option char) (c : char) (t : str) :
  find prev (c :: t) = None ->
  scan_go find repl 0 prev (c :: t) = c :: scan_go find repl 0 (Some c) t.
Proof. intros H. simpl. now rewrite H. Qed.

Lemma scan_go_hit (prev : option char) (t : str) (n : nat) :
  find prev t = Some n -> 0 < n <= List.length t ->
  scan_go find repl 0 prev t
  = repl (firstn n t)
    ++ scan_go find repl 0 (last_char prev (firstn n t)) (skipn n t).
Proof.
  intros H [Hn Hl]. destruct n as [|n]; [lia|].
  destruct t as [|c t]; simpl in Hl; [lia|].
  cbn [scan_go]. rewrite H. f_equal.
  rewrite scan_go_skip by lia. reflexivity.
Qed.

Lemma scan_go_not_found (prev : option char) (t : str) :
  found find prev t = false -> scan_go find repl 0 prev t = t.
Proof.
  revert prev; induction t as [|c t IH]; intros prev H; simpl in *.
  - destruct (find prev []); [discriminate|reflexivity].
  - destruct (find prev (c :: t)); [discriminate|].
    now rewrite IH.
Qed.

Lemma scan_not_found (t : str) :
  found find None t = false -> scan find repl t = t.
Proof. apply scan_go_not_found. Qed.

End ScanFacts.

(** ** The matcher against the language of a pattern *)

Section MatcherFacts.

Variable p : char -> bool.
Variable k : str -> option nat.
Variable D : str -> Prop.

Hypothesis k_sound :
  forall t n, k t = Some n ->
    exists w rest, t = w ++ rest /\ List.length w = n /\ D w.

Lemma greedy_sound (t : str) (n : nat) :
  greedy p k t = Some n ->
  exists a w rest,
    t = a ++ w ++ rest /\ forallb p a = true
    /\ List.length (a ++ w) = n /\ D w.
Proof.
  revert n; induction t as [|c t IH]; intros n H; simpl in H.
  - destruct (k_sound _ _ H) as (w & rest & E & L & HD).
    exists [], w, rest. auto.
  - assert (Hk : k (c :: t) = Some n ->
                 exists a w rest,
                   c :: t = a ++ w ++ rest /\ forallb p a = true
                   /\ List.length (a ++ w) = n /\ D w).
    { intros Hk. destruct (k_sound _ _ Hk) as (w & rest & E & L & HD).
      exists [], w, rest. auto. }
    destruct (p c) eqn:Hp; [|auto].
    destruct (greedy p k t) as [m|] eqn:Hg; [|auto].
    injection H as <-.
    destruct (IH _ eq_refl) as (a & w & rest & E & Ha & L & HD).
    exists (c :: a), w, rest. simpl. rewrite Hp, Ha, L, E. auto.
Qed.

Lemma lazy_sound (t : str) (n : nat) :
  lazy p k t = Some n ->
  exists a w rest,
    t = a ++ w ++ rest /\ forallb p a = true
    /\ List.length (a ++ w) = n /\ D w.
Proof.
  revert n; induction t as [|c t IH]; intros n H; simpl in H.
  - destruct (k []) eqn:Hk; [|discriminate]. injection H as ->.
    destruct (k_sound _ _ Hk) as (w & rest & E & L & HD).
    exists [], w, rest. auto.
  - destruct (k (c :: t)) eqn:Hk.
    + injection H as ->.
      destruct (k_sound _ _ Hk) as (w & rest & E & L & HD).
      exists [], w, rest. auto.
    + destruct (p c) eqn:Hp; [|discriminate].
      destruct (lazy p k t) as [m|] eqn:Hg; [|discriminate].
      injection H as <-.
      destruct (IH _ eq_refl) as (a & w & rest & E & Ha & L & HD).
      exists (c :: a), w, rest. simpl. rewrite Hp, Ha, L, E. auto.
Qed.

Lemma greedy_complete (a t : str) :
  forallb p a = true -> k t <> None -> greedy p k (a ++ t) <> None.
Proof.
  intros Ha Hk. induction a as [|c a IH]; simpl in *.
  - destruct t as [|c t]; simpl; [exact Hk|].
    destruct (p c); [|exact Hk].
    destruct (greedy p k t); [discriminate|exact Hk].
  - apply andb_true_iff in Ha as [Hc Ha]. rewrite Hc.
    destruct (greedy p k (a ++ t)); [discriminate|].
    now exfalso; apply IH.
Qed.

Lemma lazy_complete (a t : str) :
  forallb p a = true -> k t <> None -> lazy p k (a ++ t) <> None.
Proof.
  intros Ha Hk. induction a as [|c a IH]; simpl in *.
  - destruct t as [|c t]; simpl; destruct (k _); congruence.
  - apply andb_true_iff in Ha as [Hc Ha]. rewrite Hc.
    destruct (k (c :: a ++ t)); [discriminate|].
    destruct (lazy p k (a ++ t)); [discriminate|].
    now exfalso; apply IH.
Qed.

End MatcherFacts.

Lemma one_pos (q : char -> bool) (k : str -> option nat) (t : str) (n : nat) :
  one q k t = Some n -> 0 < n.
Proof.
  destruct t as [|c t]; simpl; [discriminate|].
  destruct (q c); [|discriminate].
  destruct (k t); simpl; [|discriminate]. intros [= <-]. lia.
Qed.

Lemma re_match_sound (r : list atom) (t : str) (n : nat) :
  re_match r t = Some n ->
  exists w rest, t = w ++ rest /\ List.length w = n /\ denotes r w.
Proof.
  revert t n; induction r as [|a r IH]; intros t n H.
  - injection H as <-. now exists [], t.
  - assert (Hone : forall q k D,
      (forall t n, k t = Some n ->
         exists w rest, t = w ++ rest /\ List.length w = n /\ D w) ->
      one q k t = Some n ->
      exists c w rest, t = c :: w ++ rest /\ q c = true
                       /\ S (List.length w) = n /\ D w).
    { intros q k D Hk Ho. destruct t as [|c t]; simpl in Ho; [discriminate|].
      destruct (q c) eqn:Hq; [|discriminate].
      destruct (k t) as [m|] eqn:Hm; [|discriminate]. injection Ho as <-.
      destruct (Hk _ _ Hm) as (w & rest & -> & <- & HD).
      now exists c, w, rest. }
    destruct a as [c|q|q|q|q]; cbn [re_match] in H.
    + destruct (Hone _ _ _ IH H) as (c' & w & rest & -> & Hc & <- & HD).
      apply N.eqb_eq in Hc; subst c'.
      exists (c :: w), rest. repeat split. simpl. now exists w.
    + destruct (Hone _ _ _ IH H) as (c' & w & rest & -> & Hc & <- & HD).
      exists (c' :: w), rest. repeat split. simpl. now exists c', w.
    + destruct (greedy_sound q _ _ IH _ _ H)
        as (a & w & rest & -> & Ha & <- & HD).
      exists (a ++ w), rest. rewrite <- app_assoc. repeat split.
      simpl. now exists a, w.
    + destruct t as [|c t]; simpl in H; [discriminate|].
      destruct (q c) eqn:Hc; [|discriminate].
      destruct (greedy q (re_match r) t) as [m|] eqn:Hg; [|discriminate].
      injection H as <-.
      destruct (greedy_sound q _ _ IH _ _ Hg)
        as (a & w & rest & -> & Ha & <- & HD).
      exists (c :: a ++ w), rest. repeat split.
      * simpl. now rewrite <- !app_assoc.
      * simpl. now exists c, a, w.
    + destruct (lazy_sound q _ _ IH _ _ H)
        as (a & w & rest & -> & Ha & <- & HD).
      exists (a ++ w), rest. rewrite <- app_assoc. repeat split.
      simpl. now exists a, w.
Qed.

Lemma re_match_complete (r : list atom) (w rest : str) :
  denotes r w -> re_match r (w ++ rest) <> None.
Proof.
  revert w; induction r as [|a r IH]; intros w H.
  - discriminate.
  - destruct a as [c|q|q|q|q]; cbn [re_match]; simpl in H.
    + destruct H as (w' & -> & H). simpl. rewrite N.eqb_refl.
      specialize (IH _ H). destruct (re_match r (w' ++ rest)); [discriminate|].
      congruence.
    + destruct H as (c & w' & -> & Hc & H). simpl. rewrite Hc.
      specialize (IH _ H). destruct (re_match r (w' ++ rest)); [discriminate|].
      congruence.
    + destruct H as (a & b & -> & Ha & H). rewrite <- app_assoc.
      apply greedy_complete; auto.
    + destruct H as (c & a & b & -> & Hc & Ha & H). simpl. rewrite Hc.
      rewrite <- app_assoc.
      pose proof (greedy_complete q (re_match r) a (b ++ rest) Ha (IH _ H)).
      destruct (greedy q (re_match r) (a ++ b ++ rest)); [discriminate|].
      congruence.
    + destruct H as (a & b & -> & Ha & H). rewrite <- app_assoc.
      apply lazy_complete; auto.
Qed.

Lemma re_match_bound (r : list atom) (t : str) (n : nat) :
  re_match r t = Some n -> n <= List.length t.
Proof.
  intros H. destruct (re_match_sound _ _ _ H) as (w & rest & -> & <- & _).
  rewrite length_app. lia.
Qed.

Lemma denotes_lits (x : str) (r : list atom) (w : str) :
  denotes (lits x ++ r) w <-> exists w', w = x ++ w' /\ denotes r w'.
Proof.
  revert w; induction x as [|c x IH]; intros w; simpl.
  - split; [intros H; now exists w | now intros (w' & -> & H)].
  - split.
    + intros (w1 & -> & H). apply IH in H as (w' & -> & H). now exists w'.
    + intros (w' & -> & H). exists (x ++ w'). split; [reflexivity|].
      apply IH. now exists w'.
Qed.

Lemma subseq_refl (a : str) : subseq a a.
Proof. induction a; [constructor|now apply subseq_keep]. Qed.

Lemma subseq_trans (a b c : str) : subseq a b -> subseq b c -> subseq a c.
Proof.
  intros Hab Hbc. revert a Hab.
  induction Hbc; intros x Hx.
  - exact Hx.
  - apply subseq_skip. auto.
  - inversion Hx; subst; [apply subseq_skip|apply subseq_keep]; auto.
Qed.

Lemma subseq_app_r (a b : str) : subseq a (a ++ b).
Proof.
  induction a as [|c a IH]; simpl.
  - induction b; constructor; auto.
  - now apply subseq_keep.
Qed.

Lemma subseq_nil_l (a : str) : subseq [] a.
Proof. induction a; constructor; auto. Qed.

Lemma subseq_app (a b x y : str) :
  subseq x a -> subseq y b -> subseq (x ++ y) (a ++ b).
Proof.
  intros Hx Hy. induction Hx; simpl.
  - exact Hy.
  - now apply subseq_skip.
  - now apply subseq_keep.
Qed.

Section ScanMore.

Variable find : option char -> str -> option nat.

Lemma scan_go_ext (repl1 repl2 : str -> str) (k : nat)
  (prev : option char) (t : str) :
  (forall prev t n, find prev t = Some n ->
     repl1 (firstn n t) = repl2 (firstn n t)) ->
  scan_go find repl1 k prev t = scan_go find repl2 k prev t.
Proof.
  intros E. revert k prev; induction t as [|c t IH]; intros k prev.
  - destruct k; simpl; [|reflexivity].
    destruct (find prev []) eqn:H; [|reflexivity].
    now rewrite (E _ _ _ H).
  - destruct k; simpl; [|apply IH].
    destruct (find prev (c :: t)) eqn:H.
    + rewrite (E _ _ _ H). destruct n; now rewrite IH.
    + now rewrite IH.
Qed.

Variable repl : str -> str.

(** The scan up to and including its first match. *)
Lemma scan_go_first (prev : option char) (u rest : str) (n : nat) :
  (forall u1 u2, u = u1 ++ u2 -> u2 <> [] ->
     find (last_char prev u1) (u2 ++ rest) = None) ->
  find (last_char prev u) rest = Some n ->
  0 < n <= List.length rest ->
  scan_go find repl 0 prev (u ++ rest)
  = u ++ repl (firstn n rest)
    ++ scan_go find repl 0
         (last_char (last_char prev u) (firstn n rest)) (skipn n rest).
Proof.
  revert prev; induction u as [|c u IH]; intros prev Hu Hn Hl.
  - cbn [app]. now apply scan_go_hit.
  - cbn [app]. rewrite scan_go_miss.
    + f_equal. apply IH; auto.
      intros u1 u2 -> Hne. apply (Hu (c :: u1) u2); auto.
    + apply (Hu [] (c :: u)); [reflexivity|discriminate].
Qed.

(** The text is kept when every replacement keeps the matched text. *)
Lemma scan_go_subseq (prev : option char) (t : str) :
  (forall prev t n, find prev t = Some n -> n <= List.length t) ->
  (forall m, subseq m (repl m)) ->
  forall k, k <= List.length t ->
    subseq (skipn k t) (scan_go find repl k prev t).
Proof.
  intros Hb Hr. revert prev; induction t as [|c t IH]; intros prev k Hk.
  - simpl in Hk. assert (k = 0) by lia; subst k. simpl.
    destruct (find prev []) eqn:H; [|constructor].
    apply Hb in H. simpl in H. assert (n = 0) by lia; subst n.
    simpl. rewrite app_nil_r. apply Hr.
  - destruct k as [|k].
    + cbn [skipn scan_go]. destruct (find prev (c :: t)) as [n|] eqn:H.
      * pose proof (Hb _ _ _ H) as Hn. simpl in Hn.
        destruct n as [|n].
        -- simpl firstn. change (c :: t) with ([] ++ c :: t) at 1.
           apply subseq_app; [apply Hr|].
           apply subseq_keep. apply (IH _ 0). lia.
        -- rewrite <- (firstn_skipn (S n) (c :: t)) at 1.
           apply subseq_app; [apply Hr|]. apply IH. lia.
      * apply subseq_keep. apply (IH _ 0). lia.
    + cbn [skipn scan_go]. apply IH. simpl in Hk. lia.
Qed.

(** A search that ignores the preceding character. *)
Hypothesis find_prev : forall prev prev' t, find prev t = find prev' t.

Lemma found_prev (prev prev' : option char) (t : str) :
  found find prev t = found find prev' t.
Proof.
  revert prev prev'; induction t as [|c t IH]; intros prev prev'; simpl;
    rewrite (find_prev prev prev'); reflexivity.
Qed.

Lemma scan_go_prev (prev prev' : option char) (t : str) :
  scan_go find repl 0 prev t = scan_go find repl 0 prev' t.
Proof.
  revert prev prev'; induction t as [|c t IH]; intros prev prev'; simpl;
    rewrite (find_prev prev prev'); reflexivity.
Qed.

End ScanMore.

Lemma found_lit (old : str) (prev : option char) (t : str) :
  found (find_lit old) prev t = contains old t.
Proof.
  revert prev; induction t as [|c t IH]; intros prev; simpl; unfold find_lit.
  - destruct (startswith old []); reflexivity.
  - destruct (startswith old (c :: t)); [reflexivity|]. simpl. apply IH.
Qed.

Lemma replace_absent (old new t : str) :
  contains old t = false -> replace old new t = t.
Proof.
  intros H. apply scan_not_found. now rewrite found_lit.
Qed.

Lemma find_lit_firstn (old : str) (prev : option char) (t : str) (n : nat) :
  find_lit old prev t = Some n -> firstn n t = old /\ n = List.length old.
Proof.
  unfold find_lit. destruct (startswith old t) eqn:H; [|discriminate].
  intros [= <-]. apply startswith_inv in H as [r ->].
  split; [|reflexivity].
  rewrite firstn_app, Nat.sub_diag, firstn_all. simpl. apply app_nil_r.
Qed.

Lemma match_at_bound (pat : pattern) (prev : option char) (t : str) (n : nat) :
  match_at pat prev t = Some n -> n <= List.length t.
Proof.
  unfold match_at. destruct (bol pat && negb (at_line_start prev));
    [discriminate|apply re_match_bound].
Qed.

(** ** The rules of the Patcher *)

Section RuleFacts.
Import Patcher Rules.

Lemma patch_rules (t : str) :
  patch t = fold_left (fun c r => apply r c) all_rules t.
Proof. reflexivity. Qed.

Lemma new_anchor_inserted :
  new2 = anchor2 ++ inserted Rule2 /\ new3 = anchor3 ++ inserted Rule3
  /\ new4 = anchor4 ++ inserted Rule4 /\ new5 = anchor5 ++ inserted Rule5.
Proof. repeat split; vm_compute; reflexivity. Qed.

(** Every rule is a scan that re-emits the matched anchor followed by
    the inserted text. *)
Lemma rewrite_scan (r : rule_id) (t : str) :
  rewrite r t = scan (anchor_find r) (fun m => m ++ inserted r) t.
Proof.
  destruct new_anchor_inserted as (E2 & E3 & E4 & E5).
  destruct r; cbn [rewrite anchor_find]; [reflexivity|..];
    unfold replace, scan; apply scan_go_ext; intros prev t' n H;
    apply find_lit_firstn in H as [-> _];
    [exact E2|exact E3|exact E4|exact E5].
Qed.

Lemma anchor_find_prev (r : rule_id) (prev prev' : option char) (t : str) :
  anchor_find r prev t = anchor_find r prev' t.
Proof. destruct r; reflexivity. Qed.

Lemma found_anchor (r : rule_id) (prev : option char) (t : str) :
  found (anchor_find r) prev t = anchor_found r t.
Proof.
  destruct r; cbn [anchor_find anchor_found]; try apply found_lit.
  apply found_prev. intros; reflexivity.
Qed.

Lemma scan_anchor_prev (r : rule_id) (repl : str -> str)
  (prev : option char) (t : str) :
  scan_go (anchor_find r) repl 0 prev t = scan (anchor_find r) repl t.
Proof. apply scan_go_prev, anchor_find_prev. Qed.

(** A match of an anchor is never empty and lies within the text. *)
Lemma anchor_find_pos (r : rule_id) (prev : option char) (t : str) (n : nat) :
  anchor_find r prev t = Some n -> 0 < n <= List.length t.
Proof.
  destruct r; cbn [anchor_find]; intros H;
    try (pose proof H as H'; apply find_lit_firstn in H' as [E ->];
         split; [vm_compute; lia|];
         rewrite <- E; rewrite length_firstn; lia).
  split; [|now apply match_at_bound in H].
  unfold match_at in H. simpl in H. now apply one_pos in H.
Qed.

Lemma apply_absent (r : rule_id) (t : str) :
  anchor_found r t = false -> apply r t = t.
Proof.
  intros H. unfold apply, guarded.
  destruct (contains (marker r) t); [reflexivity|].
  rewrite rewrite_scan. apply scan_not_found. now rewrite found_anchor.
Qed.

Lemma rewrite_subseq (r : rule_id) (t : str) : subseq t (rewrite r t).
Proof.
  rewrite rewrite_scan.
  apply (scan_go_subseq (anchor_find r) (fun m => m ++ inserted r) None t)
    with (k := 0); [| |lia].
  - intros prev t' n H. now apply anchor_find_pos in H.
  - intros m. apply subseq_app_r.
Qed.

Lemma apply_subseq (r : rule_id) (t : str) : subseq t (apply r t).
Proof.
  unfold apply, guarded. destruct (contains (marker r) t).
  - apply subseq_refl.
  - apply rewrite_subseq.
Qed.

End RuleFacts.

(** ** Claims about the Patcher *)

Section PatcherClaims.
Import Patcher Rules.

(** C6. Silent skip on a missing anchor: when the anchor of a rule is
    nowhere in the text, the rule returns the text unchanged.  (The
    rules are total functions: there is no error to raise.) *)
Theorem silent_skip_on_missing_anchor (r : rule_id) (t : str) :
  anchor_found r t = false -> apply r t = t.
Proof. apply apply_absent. Qed.

Lemma silent_skip_on_missing_anchor_witness :
  anchor_found Rule1 (py "const x = 1") = false
  /\ apply Rule1 (py "const x = 1") = py "const x = 1".
Proof.
  split; [reflexivity|].
  apply (silent_skip_on_missing_anchor Rule1). reflexivity.
Defined.

(** C7, as stated, fails: with the anchor of rule 2 on two lines the
    Patcher inserts after both, not after the first only. *)
Lemma first_occurrence_only_counterexample :
  let t := anchor2 ++ nl ++ anchor2 in
  contains (marker Rule2) t = false
  /\ spec_apply Rule2 t = new2 ++ nl ++ anchor2
  /\ patch t = new2 ++ nl ++ new2
  /\ patch t <> spec_apply Rule2 t.
Proof.
  cbv zeta. repeat split; try (vm_compute; reflexivity).
  vm_compute. discriminate.
Qed.

(** C7, amended.  A rule whose marker is absent inserts its text after
    the first match of its anchor and goes on rewriting the rest of the
    text, so every match found by the left-to-right scan receives the
    insertion; when the rest has no further match, exactly one
    insertion is made. *)
Theorem insertion_at_every_match (r : rule_id) (u rest : str) (n : nat) :
  contains (marker r) (u ++ rest) = false ->
  first_match r u rest n ->
  apply r (u ++ rest)
  = u ++ firstn n rest ++ inserted r ++ rewrite r (skipn n rest)
  /\ (anchor_found r (skipn n rest) = false ->
      apply r (u ++ rest) = u ++ firstn n rest ++ inserted r ++ skipn n rest).
Proof.
  intros Hm [Hu Hn].
  assert (E : apply r (u ++ rest)
              = u ++ firstn n rest ++ inserted r ++ rewrite r (skipn n rest)).
  { unfold apply, guarded. rewrite Hm, !rewrite_scan. unfold scan at 1.
    rewrite (scan_go_first _ _ None u rest n Hu Hn)
      by (eapply anchor_find_pos; eassumption).
    rewrite scan_anchor_prev, <- app_assoc. reflexivity. }
  split; [exact E|].
  intros Hr. rewrite E. do 3 f_equal.
  rewrite rewrite_scan. apply scan_not_found. now rewrite found_anchor.
Qed.

Lemma insertion_at_every_match_witness :
  let u := py "if (ok) " in
  let rest := anchor2 ++ nl ++ anchor2 in
  apply Rule2 (u ++ rest)
  = u ++ firstn 53 rest ++ inserted Rule2 ++ rewrite Rule2 (skipn 53 rest).
Proof.
  cbv zeta.
  apply (insertion_at_every_match Rule2 (py "if (ok) ")
           (anchor2 ++ nl ++ anchor2) 53).
  - reflexivity.
  - split; [|reflexivity].
    intros u1 u2 E Hne.
    assert (L : List.length u1 + List.length u2 = 8)
      by (rewrite <- length_app, <- E; reflexivity).
    do 9 (destruct u1 as [|? u1];
          [simpl in E; inversion E; subst;
           first [reflexivity|congruence]|]);
      simpl in L; lia.
Defined.

(** C8. The Patcher only inserts: the input is a subsequence of the
    output. *)
Theorem patch_insertion_only (t : str) : subseq t (patch t).
Proof.
  rewrite patch_rules. unfold all_rules. cbn [fold_left].
  repeat (eapply subseq_trans; [|apply apply_subseq]).
  apply subseq_refl.
Qed.

End PatcherClaims.

(** ** The fallback loop of the Unpatcher *)

Section ScanLoop.
Import Unpatcher Scan.

Lemma run_app (st : scan_state) (a b : list str) :
  run st (a ++ b) = run (run st a) b.
Proof. apply fold_left_app. Qed.

(** The lines already emitted play no part in what the loop does
    next. *)
Lemma scan_step_out (k : Z) (out : list str) (l : str) :
  scan_step (ScanState k out) l
  = ScanState (skip_until_close (scan_step (ScanState k []) l))
      (out ++ new_lines (scan_step (ScanState k []) l)).
Proof.
  unfold scan_step. cbn [skip_until_close new_lines].
  destruct (is_marker l), (k >? 0)%Z; cbn [skip_until_close new_lines];
    rewrite ?app_nil_r; reflexivity.
Qed.

Lemma run_out (k : Z) (out : list str) (ls : list str) :
  run (ScanState k out) ls
  = ScanState (counter_after k ls)
      (out ++ new_lines (run (ScanState k []) ls)).
Proof.
  unfold counter_after. revert k out; induction ls as [|l ls IH];
    intros k out.
  - simpl. now rewrite app_nil_r.
  - unfold run in *. cbn [fold_left].
    rewrite (scan_step_out k out l).
    destruct (scan_step (ScanState k []) l) as [k1 d1].
    cbn [skip_until_close new_lines].
    rewrite (IH k1 (out ++ d1)), (IH k1 d1).
    cbn [skip_until_close new_lines]. now rewrite <- app_assoc.
Qed.

Lemma run_marker (st : scan_state) (m : str) :
  is_marker m = true -> scan_step st m = ScanState 1 (new_lines st).
Proof. intros H. unfold scan_step. now rewrite H. Qed.

(** While the counter stays positive nothing is emitted. *)
Lemma run_skipping (k : Z) (out : list str) (ls : list str) :
  (forall i, i <= List.length ls -> (counter_after k (firstn i ls) > 0)%Z) ->
  new_lines (run (ScanState k out) ls) = out.
Proof.
  revert k; induction ls as [|l ls IH]; intros k H.
  - reflexivity.
  - pose proof (H 0 (Nat.le_0_l _)) as H0.
    unfold counter_after in H0. simpl in H0.
    unfold run. cbn [fold_left].
    assert (E : exists k', scan_step (ScanState k out) l = ScanState k' out
                           /\ scan_step (ScanState k []) l = ScanState k' []).
    { unfold scan_step. cbn [skip_until_close new_lines].
      destruct (is_marker l); [eauto|].
      destruct (k >? 0)%Z eqn:Hk; [eauto|].
      rewrite Z.gtb_ltb in Hk; apply Z.ltb_ge in Hk. lia. }
    destruct E as (k' & E1 & E2). rewrite E1. apply IH.
    intros i Hi. specialize (H (S i)). simpl in H.
    unfold counter_after, run in *. cbn [fold_left] in H.
    rewrite E2 in H. apply H. lia.
Qed.

(** A block without marker lines: the counter is the running brace
    count. *)
Lemma run_block (k : Z) (out : list str) (ls : list str) :
  Forall (fun l => is_marker l = false) ls ->
  (forall i, i <= List.length ls -> (k + brace_sum (firstn i ls) > 0)%Z) ->
  run (ScanState k out) ls = ScanState (k + brace_sum ls) out.
Proof.
  revert k; induction ls as [|l ls IH]; intros k Hm H.
  - simpl. now rewrite Z.add_0_r.
  - inversion Hm as [|? ? Hl Hm']; subst.
    pose proof (H 0 (Nat.le_0_l _)) as H0. simpl in H0.
    pose proof (H 1 ltac:(simpl; lia)) as H1. simpl in H1.
    unfold run. cbn [fold_left]. unfold scan_step at 2.
    cbn [skip_until_close new_lines]. rewrite Hl.
    destruct (k >? 0)%Z eqn:Hk;
      [|rewrite Z.gtb_ltb in Hk; apply Z.ltb_ge in Hk; lia].
    destruct (k + brace_delta l <=? 0)%Z eqn:Hc;
      [apply Z.leb_le in Hc; lia|].
    fold (run (ScanState (k + brace_delta l) out) ls).
    rewrite IH; auto.
    + simpl. f_equal. lia.
    + intros i Hi. specialize (H (S i)). simpl in H.
      rewrite Z.add_assoc in H. apply H. lia.
Qed.

End ScanLoop.

(** ** Claims about the fallback loop *)

Section ScanClaims.
Import Unpatcher Scan.

(** C9. Unbalanced block: when the loop meets a marker line and its
    counter stays above zero on every line that follows, every line
    from the marker line to the end of the input is dropped. *)
Theorem unbalanced_block_tail_deleted (pre : list str) (m : str)
  (rest : list str) :
  is_marker m = true ->
  (forall i, i <= List.length rest ->
     (counter_after 1 (firstn i rest) > 0)%Z) ->
  fallback_scan (pre ++ m :: rest) = fallback_scan pre.
Proof.
  intros Hm H. unfold fallback_scan.
  change (fold_left scan_step) with (fun l s => run s l). cbv beta.
  rewrite run_app. change (m :: rest) with ([m] ++ rest).
  rewrite run_app. unfold run at 2. cbn [fold_left].
  rewrite (run_marker _ _ Hm). now apply run_skipping.
Qed.

Lemma unbalanced_block_tail_deleted_witness :
  fallback_scan
    ([py "a"] ++ py "{debugLogs.length > 0 && (" :: [py "<div>"; py "b"])
  = fallback_scan [py "a"].
Proof.
  apply unbalanced_block_tail_deleted; [reflexivity|].
  intros i Hi. simpl in Hi.
  do 3 (destruct i as [|i]; [reflexivity|]). lia.
Defined.

(** C4, as stated, fails: a line inside the block that mentions
    [debugLogs.length] restarts the count at 1, so the scan stops one
    closing line early and the last line of the block is kept. *)
Lemma brace_balance_counterexample :
  claimed_scan 0 Samples.nested_marker_block = [py "keep"]
  /\ fallback_scan Samples.nested_marker_block = [py ")}"; py "keep"]
  /\ unpatch (join_nl Samples.nested_marker_block)
     = join_nl [py ")}"; py "keep"].
Proof. repeat split; vm_compute; reflexivity. Qed.

(** C4, amended.  For a marker line followed by a block none of whose
    lines is itself a marker line, the loop drops exactly the marker
    line, the block and its closing line -- the first line at which
    the counter, started at 1 after the marker line and moved by the
    braces of each later line, is at or below zero -- and treats what
    follows as a fresh input. *)
Theorem brace_balance_without_inner_marker (pre : list str) (m : str)
  (block : list str) (close : str) (rest : list str) :
  is_marker m = true ->
  Forall (fun l => is_marker l = false) (block ++ [close]) ->
  (forall i, i <= List.length block ->
     (1 + brace_sum (firstn i block) > 0)%Z) ->
  (1 + brace_sum block + brace_delta close <= 0)%Z ->
  fallback_scan (pre ++ m :: block ++ close :: rest)
  = fallback_scan pre ++ fallback_scan rest.
Proof.
  intros Hm Hb Hpos Hclose. unfold fallback_scan.
  change (fold_left scan_step) with (fun l s => run s l). cbv beta.
  rewrite run_app. change (m :: block ++ close :: rest)
    with ([m] ++ block ++ [close] ++ rest).
  rewrite !run_app. unfold run at 4. cbn [fold_left].
  rewrite (run_marker _ _ Hm).
  apply Forall_app in Hb as [Hb Hc]. inversion Hc as [|? ? Hc' _]; subst.
  rewrite run_block by assumption.
  unfold run at 2. cbn [fold_left]. unfold scan_step.
  cbn [skip_until_close new_lines]. rewrite Hc'.
  pose proof (Hpos _ (Nat.le_refl _)) as Hlast. rewrite firstn_all in Hlast.
  destruct (1 + brace_sum block >? 0)%Z eqn:Hk;
    [|rewrite Z.gtb_ltb in Hk; apply Z.ltb_ge in Hk; lia].
  destruct (1 + brace_sum block + brace_delta close <=? 0)%Z eqn:Hz;
    [|apply Z.leb_gt in Hz; lia].
  rewrite run_out. reflexivity.
Qed.

Lemma brace_balance_without_inner_marker_witness :
  fallback_scan
    ([py "a"] ++ py "{debugLogs.length > 0 && ("
       :: [py "  {x.map(y => ("; py "    <b>{y}</b>"; py "  ))}"]
       ++ py ")}" :: [py "keep"])
  = fallback_scan [py "a"] ++ fallback_scan [py "keep"].
Proof.
  apply brace_balance_without_inner_marker.
  - reflexivity.
  - repeat constructor.
  - intros i Hi. simpl in Hi.
    do 4 (destruct i as [|i]; [vm_compute; reflexivity|]). lia.
  - vm_compute. discriminate.
Defined.

End ScanClaims.

(** ** Searching *)

Lemma found_true_inv (find : option char -> str -> option nat)
  (prev : option char) (t : str) :
  found find prev t = true ->
  exists u v n, t = u ++ v /\ find (last_char prev u) v = Some n.
Proof.
  revert prev; induction t as [|c t IH]; intros prev H; simpl in H.
  - destruct (find prev []) as [n|] eqn:E; [|discriminate].
    now exists [], [], n.
  - destruct (find prev (c :: t)) as [n|] eqn:E.
    + now exists [], (c :: t), n.
    + destruct (IH _ H) as (u & v & n & -> & Hf).
      now exists (c :: u), v, n.
Qed.

Lemma found_false_inv (find : option char -> str -> option nat)
  (prev : option char) (u v : str) :
  found find prev (u ++ v) = false -> find (last_char prev u) v = None.
Proof.
  revert prev; induction u as [|c u IH]; intros prev H.
  - destruct v; simpl in *; destruct (find prev _); congruence.
  - simpl in H. destruct (find prev (c :: u ++ v)); [discriminate|].
    now apply IH.
Qed.

(** A separator that is not in [m] splits the occurrences of [m]. *)
Lemma occurs_sep (m a b : str) (c : char) :
  ~ In c m -> occurs m (a ++ c :: b) -> occurs m a \/ occurs m b.
Proof.
  intros Hc (u & v & E).
  apply app_eq_app in E as [l [[Ea E]|[Eu E]]].
  - (* the occurrence starts inside [a] *)
    apply app_eq_app in E as [l' [[Em E]|[El E]]].
    + destruct l' as [|x l']; simpl in E.
      * left. exists u, []. rewrite Ea, Em, !app_nil_r. reflexivity.
      * injection E as <- _. exfalso. apply Hc. rewrite Em.
        apply in_or_app. right. now left.
    + left. exists u, l'. now rewrite Ea, El.
  - (* the occurrence starts after [a] *)
    destruct l as [|x l]; simpl in E.
    + destruct m as [|x m]; simpl in E.
      * left. exists a, []. now rewrite app_nil_r.
      * injection E as -> _. exfalso. apply Hc. now left.
    + injection E as _ ->. right. now exists l, v.
Qed.

Lemma occurs_join (m : str) (ls : list str) :
  ~ In NL m -> m <> [] -> occurs m (join_nl ls) -> Exists (occurs m) ls.
Proof.
  intros Hc Hm. induction ls as [|l ls IH]; intros H.
  - destruct H as (u & v & E). simpl in E.
    destruct u; [destruct m; [congruence|discriminate]|discriminate].
  - destruct ls as [|l' ls].
    + now constructor.
    + change (join_nl (l :: l' :: ls)) with (l ++ NL :: join_nl (l' :: ls)) in H.
      apply occurs_sep in H as [H|H]; auto.
Qed.

Section UnpatcherFacts.
Import Unpatcher Scan.

Lemma run_keeps (P : str -> Prop) (st : scan_state) (ls : list str) :
  (forall l, is_marker l = false -> P l) ->
  Forall P (new_lines st) -> Forall P (new_lines (run st ls)).
Proof.
  intros HP. revert st; induction ls as [|l ls IH]; intros st H.
  - exact H.
  - unfold run. cbn [fold_left]. apply IH. unfold scan_step.
    destruct (is_marker l) eqn:Hl; [exact H|].
    destruct (skip_until_close st >? 0)%Z; [exact H|].
    cbn [new_lines]. apply Forall_app. split; [exact H|].
    constructor; [auto|constructor].
Qed.

Lemma fallback_scan_no_marker (ls : list str) :
  Forall (fun l => is_marker l = false) (fallback_scan ls).
Proof.
  unfold fallback_scan. apply (run_keeps _ scan_init); [auto|constructor].
Qed.

(** The output of the Unpatcher never mentions [debugLogs.length]. *)
Lemma unpatch_no_length_marker (t : str) :
  contains length_marker (unpatch t) = false.
Proof.
  unfold unpatch.
  destruct (contains length_marker
              (re_sub debug_display_pattern remove
                 (re_sub line_pattern remove t))) eqn:E; [|exact E].
  apply contains_false. intros H.
  apply occurs_join in H.
  - apply Exists_exists in H as (l & Hin & Hl).
    pose proof (fallback_scan_no_marker
                  (split_nl (re_sub debug_display_pattern remove
                               (re_sub line_pattern remove t)))) as F.
    rewrite Forall_forall in F. specialize (F _ Hin).
    unfold is_marker in F. apply orb_false_iff in F as [_ F].
    apply contains_false in F. contradiction.
  - vm_compute. intuition discriminate.
  - discriminate.
Qed.

Lemma unpatch_clean (t : str) :
  re_search line_pattern t = false ->
  re_search debug_display_pattern t = false ->
  contains length_marker t = false ->
  unpatch t = t.
Proof.
  intros H1 H2 H3. unfold unpatch, re_sub.
  rewrite (scan_not_found _ _ t H1), (scan_not_found _ _ t H2), H3.
  reflexivity.
Qed.

(** A match of the line pattern contains [addDebugLog(]. *)
Lemma line_match_call (prev : option char) (t : str) (n : nat) :
  match_at line_pattern prev t = Some n -> occurs Samples.call_head t.
Proof.
  unfold match_at. destruct (bol line_pattern && _); [discriminate|].
  intros H. apply re_match_sound in H as (w & rest & -> & _ & D).
  cbn [body line_pattern app] in D.
  destruct D as (a & b & -> & _ & D).
  change (denotes (lits Samples.call_head
                     ++ [Plus (not_char (ch ")")); Lit (ch ")");
                         Star is_space; Lit NL]) b) in D.
  apply denotes_lits in D as (w' & -> & _).
  exists a, (w' ++ rest). now rewrite <- !app_assoc.
Qed.

Lemma no_call_no_line_match (t : str) :
  contains Samples.call_head t = false -> re_search line_pattern t = false.
Proof.
  intros H. destruct (re_search line_pattern t) eqn:E; [|reflexivity].
  apply found_true_inv in E as (u & v & n & -> & Hf).
  apply line_match_call in Hf. apply contains_false in H.
  exfalso. apply H. now apply occurs_app_r.
Qed.

End UnpatcherFacts.

(** ** Claims about the Unpatcher *)

Section UnpatcherClaims.
Import Patcher Unpatcher Samples.




(** C3 at its failing input: the helper alone.  The Patcher inserts the
    unmount call, and the Unpatcher leaves it in the text. *)
Theorem unmount_call_survives :
  contains unmount_call helper_text = false
  /\ contains unmount_call (patch helper_text) = true
  /\ contains unmount_call (unpatch (patch helper_text)) = true.
Proof. repeat split; vm_compute; reflexivity. Qed.

(** C10, as stated, fails: the block scan of the first run joins the
    opening and the closing line of a call, which the second run then
    removes. *)
Lemma unpatch_idempotence_counterexample :
  unpatch multiline_call = join_nl [py "addDebugLog("; py ")"; []]
  /\ unpatch (unpatch multiline_call) = []
  /\ unpatch (unpatch multiline_call) <> unpatch multiline_call.
Proof.
  repeat split; try (vm_compute; reflexivity). vm_compute. discriminate.
Qed.

End UnpatcherClaims.

(** ** What the matcher returns on texts of a known shape *)

Section MatcherShape.

Variable p : char -> bool.
Variable k : str -> option nat.

Lemma greedy_stops (t : str) : stops p t -> greedy p k t = k t.
Proof. destruct t as [|c t]; simpl; [reflexivity|]. now intros ->. Qed.

(** The longest run succeeds. *)
Lemma greedy_longest (a t : str) (n : nat) :
  forallb p a = true -> stops p t -> k t = Some n ->
  greedy p k (a ++ t) = Some (List.length a + n).
Proof.
  intros Ha Ht Hk. induction a as [|c a IH]; simpl in *.
  - now rewrite greedy_stops.
  - apply andb_true_iff in Ha as [-> Ha]. now rewrite IH.
Qed.

(** No run succeeds. *)
Lemma greedy_none (a t : str) :
  forallb p a = true -> stops p t ->
  (forall a1 a2, a = a1 ++ a2 -> k (a2 ++ t) = None) ->
  greedy p k (a ++ t) = None.
Proof.
  intros Ha Ht Hk. induction a as [|c a IH]; simpl in *.
  - rewrite greedy_stops by assumption. apply (Hk [] []). reflexivity.
  - apply andb_true_iff in Ha as [-> Ha]. rewrite IH; auto.
    + apply (Hk [] (c :: a)). reflexivity.
    + intros a1 a2 ->. apply (Hk (c :: a1) a2). reflexivity.
Qed.

End MatcherShape.

Lemma re_match_lits (x : str) (r : list atom) (t : str) :
  re_match (lits x ++ r) (x ++ t)
  = option_map (Nat.add (List.length x)) (re_match r t).
Proof.
  induction x as [|c x IH]; cbn [lits map app re_match one].
  - destruct (re_match r t); reflexivity.
  - rewrite N.eqb_refl. fold (lits x). rewrite IH.
    destruct (re_match r t); reflexivity.
Qed.

Lemma forallb_split (q : char -> bool) (x : str) :
  forallb q x = false ->
  exists pre c post, x = pre ++ c :: post /\ forallb q pre = true /\ q c = false.
Proof.
  induction x as [|c x IH]; simpl; [discriminate|].
  destruct (q c) eqn:Hc; simpl.
  - intros H. destruct (IH H) as (pre & c' & post & -> & Hp & Hc').
    exists (c :: pre), c', post. simpl. now rewrite Hc, Hp.
  - intros _. now exists [], c, x.
Qed.

(** Two texts that start with a run of [q] ended by a character outside
    [q] have the same run. *)
Lemma run_unique (q : char -> bool) (a b x y : str) (c d : char) :
  forallb q a = true -> forallb q b = true -> q c = false -> q d = false ->
  a ++ c :: x = b ++ d :: y -> a = b /\ c = d /\ x = y.
Proof.
  intros Ha Hb Hc Hd. revert b Hb; induction a as [|e a IH]; intros b Hb E.
  - destruct b as [|f b]; simpl in *.
    + now injection E as -> ->.
    + injection E as -> _. apply andb_true_iff in Hb as [Hb _]. congruence.
  - destruct b as [|f b]; simpl in *.
    + injection E as -> _. apply andb_true_iff in Ha as [Ha _]. congruence.
    + injection E as -> E.
      apply andb_true_iff in Ha as [_ Ha]. apply andb_true_iff in Hb as [_ Hb].
      destruct (IH Ha _ Hb E) as (-> & -> & ->). auto.
Qed.

(** A prefix without [c] of a text cut at [c] is a prefix of the cut. *)
Lemma startswith_cut (h y z : str) (c : char) :
  forallb (not_char c) h = true ->
  startswith h (y ++ c :: z) = true -> startswith h y = true.
Proof.
  revert y; induction h as [|a h IH]; intros y Hh H; [reflexivity|].
  simpl in Hh. apply andb_true_iff in Hh as [Ha Hh].
  destruct y as [|b y]; simpl in *.
  - apply andb_true_iff in H as [H _]. apply N.eqb_eq in H. subst.
    unfold not_char in Ha. rewrite N.eqb_refl in Ha. discriminate.
  - apply andb_true_iff in H as [-> H]. simpl. now apply IH.
Qed.

Section ScanPass.

Variable find : option char -> str -> option nat.
Variable repl : str -> str.

(** The scan copies a stretch in which no match starts. *)
Lemma scan_go_pass (prev : option char) (u rest : str) :
  (forall u1 u2, u = u1 ++ u2 -> u2 <> [] ->
     find (last_char prev u1) (u2 ++ rest) = None) ->
  scan_go find repl 0 prev (u ++ rest)
  = u ++ scan_go find repl 0 (last_char prev u) rest.
Proof.
  revert prev; induction u as [|c u IH]; intros prev Hu.
  - reflexivity.
  - cbn [app]. rewrite scan_go_miss.
    + f_equal. apply IH. intros u1 u2 -> Hne.
      apply (Hu (c :: u1) u2); auto.
    + apply (Hu [] (c :: u)); [reflexivity|discriminate].
Qed.

End ScanPass.

Lemma split_snoc (t u1 u2 : str) (c : char) :
  t ++ [c] = u1 ++ u2 -> u2 <> [] -> exists u2', u2 = u2' ++ [c] /\ t = u1 ++ u2'.
Proof.
  intros E Hne. destruct (exists_last Hne) as (l & a & ->).
  rewrite app_assoc in E. apply app_inj_tail in E as [-> ->]. now exists l.
Qed.

Lemma last_char_snoc (prev : option char) (u : str) (c : char) :
  last_char prev (u ++ [c]) = Some c.
Proof. now rewrite last_char_app. Qed.

Lemma last_char_in (prev : option char) (u : str) :
  u <> [] -> exists c, last_char prev u = Some c /\ In c u.
Proof.
  intros Hne. destruct (exists_last Hne) as (l & a & ->).
  exists a. rewrite last_char_snoc. split; [reflexivity|].
  apply in_or_app. right. now left.
Qed.

Lemma forallb_not_char (c : char) (t : str) :
  forallb (not_char c) t = true <-> ~ In c t.
Proof.
  rewrite forallb_forall. unfold not_char. split.
  - intros H Hin. specialize (H _ Hin). now rewrite N.eqb_refl in H.
  - intros H x Hx. destruct (N.eqb_spec x c); [subst; contradiction|reflexivity].
Qed.


(** ** The line-removal pass on statement lines *)

Section LinePass.
Import Unpatcher Lines.

Lemma well_formed_call (i a : str) :
  well_formed (Call i a) = true ->
  forallb is_space i = true /\ forallb (not_char NL) i = true
  /\ a <> [] /\ forallb (not_char (ch ")")) a = true
  /\ forallb (not_char NL) a = true.
Proof.
  cbn [well_formed]. rewrite !andb_true_iff.
  intros ((((Hi & Hn) & Hne) & Hp) & Ha). repeat split; auto.
  destruct a; [discriminate|discriminate].
Qed.

Lemma well_formed_ordinary (x : str) :
  well_formed (Ordinary x) = true ->
  forallb (not_char NL) x = true
  /\ (exists pre c post, x = pre ++ c :: post
        /\ forallb is_space pre = true /\ is_space c = false)
  /\ ~ occurs call_head x.
Proof.
  cbn [well_formed]. rewrite !andb_true_iff, !negb_true_iff.
  intros ((Hn & Hb) & Hc). repeat split; auto.
  - now apply forallb_split.
  - now apply contains_false.
Qed.

Lemma well_formed_led (l : line) (t : str) :
  well_formed l = true -> led (text_of l ++ t).
Proof.
  destruct l as [i a|x]; intros H.
  - apply well_formed_call in H as (Hi & Hn & _).
    exists i, (call_head ++ a ++ [ch ")"] ++ t). repeat split; auto.
    cbn [text_of]. now rewrite <- !app_assoc.
  - apply well_formed_ordinary in H
      as (Hn & (pre & c & post & -> & Hp & Hc) & _).
    exists pre, (c :: post ++ t). repeat split; auto.
    + cbn [text_of]. now rewrite <- app_assoc.
    + rewrite forallb_app in Hn. now apply andb_true_iff in Hn as [Hn _].
Qed.

Lemma render_led (ls : list line) :
  forallb well_formed ls = true -> led (render ls).
Proof.
  destruct ls as [|l ls]; cbn [forallb render flat_map].
  - intros _. now exists [], [].
  - intros H. apply andb_true_iff in H as [H _].
    rewrite <- app_assoc. now apply well_formed_led.
Qed.

(** After the closing parenthesis, [\s*\n] takes the newline that ends
    the line and nothing more. *)
Lemma line_end_match (t : str) :
  led t -> re_match [Star is_space; Lit NL] (NL :: t) = Some 1.
Proof.
  intros (w & r & -> & Hw & Hn & Hr).
  change (re_match [Star is_space; Lit NL])
    with (greedy is_space (one (N.eqb NL) (fun _ => Some 0))).
  cbn [greedy]. change (is_space NL) with true. cbv iota.
  rewrite greedy_none; auto.
  intros a1 a2 ->. rewrite forallb_app in Hn.
  apply andb_true_iff in Hn as [_ Hn].
  destruct a2 as [|c a2]; cbn [app one].
  - destruct r as [|c r]; cbn [one]; [reflexivity|].
    simpl in Hr. destruct (N.eqb_spec NL c); [subst; discriminate|reflexivity].
  - simpl in Hn. apply andb_true_iff in Hn as [Hc _]. unfold not_char in Hc.
    rewrite N.eqb_sym. now destruct (c =? NL)%N.
Qed.

End LinePass.

Lemma re_match_star (p : char -> bool) (r : list atom) (t : str) :
  re_match (Star p :: r) t = greedy p (re_match r) t.
Proof. reflexivity. Qed.

Lemma re_match_plus (p : char -> bool) (r : list atom) (c : char) (t : str) :
  p c = true ->
  re_match (Plus p :: r) (c :: t) = option_map S (greedy p (re_match r) t).
Proof. intros H. cbn [re_match one]. now rewrite H. Qed.

Lemma re_match_lit (c : char) (r : list atom) (t : str) :
  re_match (Lit c :: r) (c :: t) = option_map S (re_match r t).
Proof. cbn [re_match one]. now rewrite N.eqb_refl. Qed.

Section LinePass2.
Import Unpatcher Lines.

Lemma line_body :
  body line_pattern
  = Star is_space
      :: lits call_head
         ++ [Plus (not_char (ch ")")); Lit (ch ")"); Star is_space; Lit NL].
Proof. reflexivity. Qed.

(** A call statement is matched, with the newline that ends it. *)
Lemma line_find_call (prev : option char) (i a t : str) :
  well_formed (Call i a) = true -> at_line_start prev = true -> led t ->
  line_find prev (text_of (Call i a) ++ NL :: t)
  = Some (List.length (text_of (Call i a) ++ [NL])).
Proof.
  intros H Hp Ht. apply well_formed_call in H as (Hi & _ & Hne & Hap & _).
  unfold line_find, match_at. rewrite Hp, line_body.
  cbn [bol line_pattern andb negb text_of]. rewrite <- !app_assoc.
  destruct a as [|c a]; [congruence|]. cbn [forallb] in Hap.
  apply andb_true_iff in Hap as [Hc Hap].
  rewrite re_match_star.
  rewrite (greedy_longest is_space _ i _
             (List.length call_head + S (List.length a + 2)) Hi).
  - f_equal. rewrite !length_app. cbn [List.length]. lia.
  - reflexivity.
  - rewrite re_match_lits. cbn [app]. rewrite (re_match_plus _ _ _ _ Hc).
    rewrite (greedy_longest _ _ a _ 2 Hap).
    + reflexivity.
    + reflexivity.
    + cbn [app]. rewrite re_match_lit, (line_end_match t Ht). reflexivity.
Qed.

(** An ordinary line is not matched. *)
Lemma line_find_ordinary (prev : option char) (x t : str) :
  well_formed (Ordinary x) = true ->
  line_find prev (x ++ NL :: t) = None.
Proof.
  intros H. apply well_formed_ordinary in H
    as (Hn & (pre & c & post & -> & Hp & Hc) & Ho).
  unfold line_find, match_at.
  destruct (bol line_pattern && negb (at_line_start prev)); [reflexivity|].
  destruct (re_match _ _) as [n|] eqn:E; [exfalso|reflexivity].
  apply re_match_sound in E as (w & rest & E & _ & D).
  rewrite line_body in D. cbn [denotes] in D.
  destruct D as (a & b & -> & Ha & D).
  apply denotes_lits in D as (w' & -> & _).
  rewrite <- !app_assoc in E. cbn [app] in E.
  change call_head with (97%N :: skipn 1 call_head) in E. cbn [app] in E.
  apply (run_unique is_space) in E as (-> & -> & E); auto.
  assert (S : startswith call_head (97%N :: post) = true).
  { apply (startswith_cut _ (97%N :: post) t NL); [reflexivity|].
    cbn [app]. rewrite E.
    change (97%N :: skipn 1 call_head ++ w' ++ rest)
      with (call_head ++ w' ++ rest).
    apply startswith_app. }
  apply startswith_inv in S as [r S]. apply Ho. exists a, r. f_equal. exact S.
Qed.


End LinePass2.

Section LinePass3.
Import Unpatcher Lines.

Lemma line_find_nil (prev : option char) : line_find prev [] = None.
Proof.
  unfold line_find, match_at.
  destruct (bol line_pattern && negb (at_line_start prev)); reflexivity.
Qed.

Lemma line_find_inside (prev : option char) (u t : str) :
  u <> [] -> forallb (not_char NL) u = true ->
  line_find (last_char prev u) t = None.
Proof.
  intros Hne Hn. destruct (last_char_in prev u Hne) as (c & -> & Hin).
  rewrite forallb_forall in Hn. specialize (Hn _ Hin).
  unfold line_find, match_at, at_line_start. unfold not_char in Hn.
  apply negb_true_iff in Hn. now rewrite Hn.
Qed.

(** The line-removal pass drops the call statements and keeps the
    ordinary lines. *)
Lemma line_pass_render (prev : option char) (ls : list line) :
  forallb well_formed ls = true -> at_line_start prev = true ->
  scan_go line_find remove 0 prev (render ls)
  = render (filter is_ordinary ls).
Proof.
  revert prev; induction ls as [|l ls IH]; intros prev Hw Hp.
  - cbn [render flat_map scan_go]. now rewrite line_find_nil.
  - cbn [forallb] in Hw. apply andb_true_iff in Hw as [Hl Hw].
    pose proof (render_led ls Hw) as Hled.
    change (render (l :: ls)) with ((text_of l ++ nl) ++ render ls).
    rewrite <- app_assoc. cbn [nl app].
    destruct l as [i a|x].
    + rewrite (scan_go_hit line_find remove prev _
                 (List.length (text_of (Call i a) ++ [NL]))).
      * change (text_of (Call i a) ++ NL :: render ls)
          with (text_of (Call i a) ++ [NL] ++ render ls).
        rewrite app_assoc, firstn_app, Nat.sub_diag, firstn_all, skipn_app,
          Nat.sub_diag, skipn_all. cbn [firstn skipn app remove].
        rewrite app_nil_r, last_char_snoc. cbn [filter is_ordinary].
        now apply IH.
      * now apply line_find_call.
      * rewrite !length_app. cbn [List.length]. lia.
    + change (text_of (Ordinary x) ++ NL :: render ls)
        with (x ++ [NL] ++ render ls).
      rewrite app_assoc, scan_go_pass.
      * rewrite last_char_snoc, IH by auto.
        cbn [filter is_ordinary]. cbn [render flat_map text_of].
        now rewrite <- !app_assoc.
      * intros u1 u2 E Hne.
        apply split_snoc in E as (u2' & -> & ->); [|exact Hne].
        rewrite <- app_assoc. cbn [app].
        destruct u1 as [|c u1].
        -- now apply line_find_ordinary.
        -- apply line_find_inside; [discriminate|].
           apply well_formed_ordinary in Hl as (Hn & _).
           rewrite forallb_app in Hn. now apply andb_true_iff in Hn as [Hn _].
Qed.

End LinePass3.

(** ** The literal rules on statement lines *)

Lemma last_sep_unique (q : char) (w x v : str) :
  forallb (not_char q) w = true -> w ++ [q] = x ++ q :: v -> x = w /\ v = [].
Proof.
  revert x; induction w as [|c w IH]; intros x Hw E.
  - destruct x as [|d x]; simpl in E.
    + now injection E as <-.
    + injection E as _ E. destruct x; discriminate.
  - simpl in Hw. apply andb_true_iff in Hw as [Hc Hw].
    destruct x as [|d x]; simpl in E.
    + injection E as -> _. unfold not_char in Hc.
      rewrite N.eqb_refl in Hc. discriminate.
    + injection E as <- E. destruct (IH _ Hw E) as [-> ->]. auto.
Qed.

Section LiteralRules.
Import Patcher Rules Lines.

Lemma literal_rule (r : rule_id) : r <> Rule1 -> literal_facts r.
Proof.
  destruct r; [congruence|..]; intros _; constructor;
    try reflexivity;
    try (apply contains_occurs; reflexivity);
    match goal with
    | |- exists A, anchor ?r = _ /\ _ =>
        exists (removelast (anchor r)); split; vm_compute; reflexivity
    end.
Qed.

End LiteralRules.

Section LiteralOnLines.
Import Patcher Rules Lines.

Variable r : rule_id.
Hypothesis facts : literal_facts r.

Let a := anchor r.
Let F := find_lit a.
Let repl := fun m : str => m ++ inserted r.

Lemma anchor_nonempty : a <> [].
Proof.
  destruct (lf_shape r facts) as (A & E & _). fold a in E. rewrite E.
  destruct A; discriminate.
Qed.

(** The anchor does not start at a newline. *)
Lemma anchor_not_at_nl (t : str) : F None (NL :: t) = None.
Proof.
  unfold F, find_lit. destruct (startswith a (NL :: t)) eqn:E; [|reflexivity].
  apply (startswith_cut a [] t NL (lf_nl r facts)) in E.
  apply startswith_inv in E as [z E]. symmetry in E.
  apply app_eq_nil in E as [E _]. now apply anchor_nonempty in E.
Qed.

(** An occurrence of the anchor that starts in a line lies within it. *)
Lemma anchor_in_line (x u1 u2 t : str) :
  x = u1 ++ u2 -> F None (u2 ++ NL :: t) <> None -> exists z, u2 = a ++ z.
Proof.
  intros -> H. unfold F, find_lit in H.
  destruct (startswith a (u2 ++ NL :: t)) eqn:E; [|congruence].
  apply (startswith_cut a u2 t NL (lf_nl r facts)) in E.
  now apply startswith_inv in E.
Qed.

(** A well-formed line holds the anchor at its end, if at all. *)
Lemma anchor_at_end (l : line) :
  well_formed l = true -> occurs a (text_of l) ->
  exists u, text_of l = u ++ a
            /\ forallb (not_char close) (u ++ removelast a) = true.
Proof.
  intros Hw (u & v & E).
  destruct (lf_shape r facts) as (A & EA & HA). fold a in EA.
  destruct l as [i arg|x].
  - apply well_formed_call in Hw as (Hi & _ & _ & Harg & _).
    change (ch ")") with close in *.
    assert (Hfree : forallb (not_char close) (i ++ call_head ++ arg) = true).
    { rewrite !forallb_app. apply andb_true_iff. split;
        [|apply andb_true_iff; split; [reflexivity|exact Harg]].
      rewrite forallb_forall in *. intros c Hc. specialize (Hi _ Hc).
      unfold not_char. destruct (N.eqb_spec c close); [subst|reflexivity].
      discriminate. }
    cbn [text_of] in *. change (ch ")") with close in *. rewrite EA in E.
    replace (i ++ call_head ++ arg ++ [close])
      with ((i ++ call_head ++ arg) ++ [close]) in E
      by now rewrite <- !app_assoc.
    replace (u ++ (A ++ [close]) ++ v) with ((u ++ A) ++ close :: v) in E
      by now rewrite <- !app_assoc.
    apply last_sep_unique in E as [E ->]; [|exact Hfree].
    exists u. rewrite EA, removelast_last. split.
    + now rewrite (app_assoc u A), E, <- !app_assoc.
    + now rewrite E.
  - apply well_formed_ordinary in Hw as (_ & _ & Ho). exfalso. apply Ho.
    cbn [text_of] in E. apply (occurs_trans _ _ _ (lf_head r facts)).
    now exists u, v.
Qed.

(** The scan of a literal rule over one line. *)
Lemma literal_scan_line (l : line) (t : str) :
  well_formed l = true ->
  scan F repl (text_of l ++ NL :: t)
  = text_of l
    ++ (if contains a (text_of l) then inserted r else [])
    ++ NL :: scan F repl t.
Proof.
  intros Hw. unfold scan.
  assert (Hprev : forall p p' x, F p x = F p' x) by reflexivity.
  destruct (contains a (text_of l)) eqn:Hc.
  - apply contains_occurs in Hc.
    destruct (anchor_at_end l Hw Hc) as (u & E & Hfree). rewrite E.
    rewrite <- app_assoc.
    rewrite (scan_go_first F repl None u (a ++ NL :: t) (List.length a)).
    + rewrite firstn_app, Nat.sub_diag, firstn_all, skipn_app,
        Nat.sub_diag, skipn_all. cbn [firstn skipn app].
      rewrite app_nil_r. unfold repl at 1.
      rewrite (scan_go_prev F repl Hprev _ None).
      rewrite scan_go_miss by apply anchor_not_at_nl.
      rewrite (scan_go_prev F repl Hprev _ None).
      now rewrite <- !app_assoc.
    + intros u1 u2 -> Hne. rewrite (Hprev _ None).
      destruct (F None (u2 ++ a ++ NL :: t)) eqn:Hf; [exfalso|reflexivity].
      rewrite app_assoc in Hf.
      destruct (anchor_in_line (u2 ++ a) [] (u2 ++ a) t eq_refl) as [z Hz];
        [congruence|].
      destruct (lf_shape r facts) as (A & EA & HA). fold a in EA.
      rewrite EA, removelast_last in Hfree.
      rewrite EA in Hz.
      replace (u2 ++ A ++ [close]) with ((u2 ++ A) ++ close :: []) in Hz
        by now rewrite <- app_assoc.
      replace ((A ++ [close]) ++ z) with (A ++ close :: z) in Hz
        by now rewrite <- app_assoc.
      rewrite <- app_assoc, forallb_app in Hfree.
      apply andb_true_iff in Hfree as [_ Hfree].
      apply (run_unique (not_char close)) in Hz as (Hz & _); auto.
      apply (f_equal (@List.length char)) in Hz. rewrite length_app in Hz.
      destruct u2; [congruence|simpl in Hz; lia].
    + rewrite (Hprev _ None). unfold F, find_lit.
      now rewrite startswith_app.
    + rewrite length_app. pose proof anchor_nonempty.
      destruct a; [congruence|simpl; lia].
  - cbn [app]. change (text_of l ++ NL :: scan_go F repl 0 None t)
      with (text_of l ++ [NL] ++ scan_go F repl 0 None t).
    change (text_of l ++ NL :: t) with (text_of l ++ [NL] ++ t).
    rewrite !app_assoc. rewrite scan_go_pass.
    + now rewrite (scan_go_prev F repl Hprev _ None).
    + intros u1 u2 E Hne. rewrite (Hprev _ None).
      apply split_snoc in E as (u2' & -> & E); [|exact Hne].
      rewrite <- app_assoc. cbn [app].
      destruct (F None (u2' ++ NL :: t)) eqn:Hf; [exfalso|reflexivity].
      destruct (anchor_in_line (text_of l) u1 u2' t E) as [z Hz];
        [congruence|].
      apply contains_false in Hc. apply Hc.
      exists u1, z. now rewrite E, Hz.
Qed.

(** The rewriting of a literal rule, line by line. *)
Lemma literal_rewrite_render (ls : list line) :
  forallb well_formed ls = true ->
  rewrite r (render ls) = render (rewritten r ls).
Proof.
  intros Hw. rewrite rewrite_scan, (lf_find r facts). fold a F repl.
  induction ls as [|l ls IH].
  - cbn [render flat_map]. unfold scan. cbn [scan_go].
    unfold F at 1, find_lit. pose proof anchor_nonempty.
    destruct a; [congruence|reflexivity].
  - cbn [forallb] in Hw. apply andb_true_iff in Hw as [Hl Hw].
    change (render (l :: ls)) with ((text_of l ++ nl) ++ render ls).
    rewrite <- app_assoc. cbn [nl app].
    rewrite (literal_scan_line l _ Hl), (IH Hw).
    unfold rewritten. cbn [flat_map]. fold (rewritten r ls). fold a.
    destruct (contains a (text_of l)).
    + rewrite (lf_ins r facts). cbn [app render flat_map nl].
      fold (render (rewritten r ls)). now rewrite <- !app_assoc.
    + cbn [app render flat_map nl].
      fold (render (rewritten r ls)). now rewrite <- !app_assoc.
Qed.

Lemma rewritten_well_formed (ls : list line) :
  forallb well_formed ls = true ->
  forallb well_formed (rewritten r ls) = true.
Proof.
  induction ls as [|l ls IH]; [reflexivity|].
  cbn [forallb]. intros H. apply andb_true_iff in H as [Hl Hw].
  unfold rewritten. cbn [flat_map]. fold (rewritten r ls).
  destruct (contains (anchor r) (text_of l)); cbn [app forallb];
    rewrite Hl, ?(lf_wf r facts), (IH Hw); reflexivity.
Qed.

Lemma rewritten_ordinary (ls : list line) :
  filter is_ordinary (rewritten r ls) = filter is_ordinary ls.
Proof.
  induction ls as [|l ls IH]; [reflexivity|].
  unfold rewritten. cbn [flat_map]. fold (rewritten r ls).
  assert (Hi : is_ordinary (inserted_line r) = false).
  { pose proof (lf_ins r facts) as H. destruct r; try reflexivity.
    discriminate H. }
  destruct (contains (anchor r) (text_of l)); cbn [app filter];
    rewrite ?Hi, IH; reflexivity.
Qed.

End LiteralOnLines.

(** ** The round trip *)

Lemma eq_str_false (a b : str) : eq_str a b = false -> a <> b.
Proof.
  unfold eq_str. destruct (list_eq_dec N.eq_dec a b); [discriminate|auto].
Qed.

Section RoundTrip.
Import Patcher Unpatcher Rules Lines Samples.

Lemma apply_on_lines (r : rule_id) (ls : list line) :
  r <> Rule1 -> forallb well_formed ls = true ->
  exists ls', apply r (render ls) = render ls'
              /\ forallb well_formed ls' = true
              /\ filter is_ordinary ls' = filter is_ordinary ls.
Proof.
  intros Hr Hw. pose proof (literal_rule r Hr) as facts.
  unfold apply, guarded. destruct (contains (marker r) (render ls)).
  - now exists ls.
  - exists (rewritten r ls). split; [|split].
    + now apply literal_rewrite_render.
    + now apply rewritten_well_formed.
    + now apply rewritten_ordinary.
Qed.

(** C2, as stated, fails: on a component in which the five anchors are
    found, no marker is present and the braces are balanced, the
    Unpatcher does not give the text back. *)
Lemma round_trip_counterexample :
  forallb (fun r => anchor_found r canonical_text) all_rules = true
  /\ forallb (fun r => negb (contains (marker r) canonical_text)) all_rules
     = true
  /\ count (ch "{") (patch canonical_text)
     = count (ch "}") (patch canonical_text)
  /\ unpatch (patch canonical_text) <> canonical_text.
Proof.
  split; [vm_compute; reflexivity|].
  split; [vm_compute; reflexivity|].
  split; [vm_compute; reflexivity|].
  apply eq_str_false. vm_compute. reflexivity.
Qed.

(** C2, amended.  For a text written one statement per line -- each line
    an [addDebugLog(...)] statement or a non-blank line without
    [addDebugLog(] -- on which rule 1 does nothing, the Unpatcher removes
    the statements the Patcher inserted together with those the text
    already had: the line-removal pass leaves the ordinary lines only,
    and the Unpatcher gives the same text after the Patcher as
    before it. *)
Theorem round_trip_up_to_statements (ls : list line) :
  forallb well_formed ls = true ->
  contains marker1 (render ls) = true
  \/ anchor_found Rule1 (render ls) = false ->
  re_sub line_pattern remove (patch (render ls))
  = render (filter is_ordinary ls)
  /\ unpatch (patch (render ls)) = unpatch (render ls).
Proof.
  intros Hw H1.
  assert (E1 : apply Rule1 (render ls) = render ls).
  { destruct H1 as [H1|H1].
    - unfold apply, guarded. cbn [marker]. now rewrite H1.
    - now apply apply_absent. }
  assert (L : forall ls0, forallb well_formed ls0 = true ->
                re_sub line_pattern remove (render ls0)
                = render (filter is_ordinary ls0)).
  { intros ls0 H0. now apply (line_pass_render None). }
  rewrite patch_rules. unfold all_rules. cbn [fold_left]. rewrite E1.
  destruct (apply_on_lines Rule2 ls ltac:(discriminate) Hw)
    as (l2 & -> & W2 & O2).
  destruct (apply_on_lines Rule3 l2 ltac:(discriminate) W2)
    as (l3 & -> & W3 & O3).
  destruct (apply_on_lines Rule4 l3 ltac:(discriminate) W3)
    as (l4 & -> & W4 & O4).
  destruct (apply_on_lines Rule5 l4 ltac:(discriminate) W4)
    as (l5 & -> & W5 & O5).
  assert (E : re_sub line_pattern remove (render l5)
              = re_sub line_pattern remove (render ls)).
  { rewrite !L by assumption. now rewrite O5, O4, O3, O2. }
  split.
  - rewrite E. now apply L.
  - unfold unpatch. now rewrite E.
Qed.

Lemma round_trip_up_to_statements_witness :
  let ls := RoundTripSamples.tap_handler in
  re_sub line_pattern remove (patch (render ls))
  = render (filter is_ordinary ls)
  /\ unpatch (patch (render ls)) = unpatch (render ls).
Proof.
  cbv zeta. apply round_trip_up_to_statements.
  - vm_compute. reflexivity.
  - right. vm_compute. reflexivity.
Defined.

End RoundTrip.

(** ** Insertions after a character *)

Lemma startswith_app_cases (x s t : str) :
  startswith x (s ++ t) = true ->
  startswith x s = true \/ startswith s x = true.
Proof.
  revert s; induction x as [|a x IH]; intros s H; [now left|].
  destruct s as [|b s]; [now right|].
  simpl in *. apply andb_true_iff in H as [Hab H].
  apply N.eqb_eq in Hab. subst b. rewrite N.eqb_refl. simpl.
  now apply IH.
Qed.

Lemma startswith_trans (h w t : str) :
  startswith h w = true -> startswith w t = true -> startswith h t = true.
Proof.
  intros H1 H2. apply startswith_inv in H1 as [r1 ->].
  apply startswith_inv in H2 as [r2 ->].
  rewrite <- app_assoc. apply startswith_app.
Qed.

Section InsertionFacts.
Import Insertion.

Variable q : char.
Variable ins : str.

Lemma inserted_after_app (a t t' : str) :
  inserted_after q ins t t' -> inserted_after q ins (a ++ t) (a ++ t').
Proof. intros H. induction a; simpl; [exact H|now apply ia_keep]. Qed.

Lemma follows_clear_tail (c : char) (v : str) :
  follows_clear q ins (c :: v) -> follows_clear q ins v.
Proof. intros H w1 w2 ->. apply (H (c :: w1) w2). reflexivity. Qed.

(** A word that starts the new text started the old one. *)
Lemma prefix_back (t t' : str) :
  inserted_after q ins t t' ->
  forall v, follows_clear q ins v ->
    startswith v t' = true -> startswith v t = true.
Proof.
  induction 1 as [|c t t' R IH|t t' R IH]; intros v Hv H.
  - exact H.
  - destruct v as [|a v]; [reflexivity|]. simpl in *.
    apply andb_true_iff in H as [-> H]. simpl.
    apply IH; [now apply follows_clear_tail in Hv|exact H].
  - destruct v as [|a v]; [reflexivity|]. simpl in *.
    apply andb_true_iff in H as [Ha H]. rewrite Ha. simpl.
    apply N.eqb_eq in Ha. subst a.
    destruct v as [|b v]; [reflexivity|].
    exfalso. apply startswith_app_cases in H.
    destruct (Hv [] (b :: v) eq_refl) as [H1 H2]; [discriminate|].
    destruct H; congruence.
Qed.

(** No word headed by [h] starts inside [ins]. *)
Lemma contains_skip_ins (h w z : str) :
  no_overlap ins h = true -> startswith h w = true ->
  contains w (ins ++ z) = true -> contains w z = true.
Proof.
  intros Hn Hh. induction ins as [|c i IH]; intros H; [exact H|].
  cbn [no_overlap] in Hn. apply andb_true_iff in Hn as [Hn Hi].
  apply andb_true_iff in Hn as [Hn1 Hn2].
  apply negb_true_iff in Hn1, Hn2.
  change ((c :: i) ++ z) with (c :: i ++ z) in H. cbn [contains] in H.
  apply orb_true_iff in H as [H|H]; [exfalso|now apply IH].
  apply (startswith_trans _ _ _ Hh), (startswith_app_cases h (c :: i) z) in H.
  destruct H; congruence.
Qed.

(** A word that occurs in the new text occurred in the old one. *)
Lemma contains_back (h w : str) (t t' : str) :
  inserted_after q ins t t' ->
  no_overlap ins h = true -> startswith h w = true ->
  follows_clear q ins w ->
  contains w t' = true -> contains w t = true.
Proof.
  intros R Hn Hh Hw. induction R as [|c t t' R IH|t t' R IH]; intros H.
  - exact H.
  - cbn [contains] in *. apply orb_true_iff in H as [H|H].
    + apply orb_true_iff. left.
      apply (prefix_back (c :: t) (c :: t') (ia_keep q ins c t t' R) w Hw H).
    + apply orb_true_iff. right. auto.
  - cbn [contains] in *. apply orb_true_iff in H as [H|H].
    + apply orb_true_iff. left.
      apply (prefix_back (q :: t) (q :: ins ++ t') (ia_ins q ins t t' R) w Hw H).
    + apply orb_true_iff. right.
      apply IH. now apply (contains_skip_ins h).
Qed.

(** A word without [q] that occurs in the old text occurs in the new
    one. *)
Lemma prefix_forward (m : str) (t t' : str) :
  inserted_after q ins t t' -> forallb (not_char q) m = true ->
  startswith m t = true -> startswith m t' = true.
Proof.
  intros R. revert m. induction R as [|c t t' R IH|t t' R IH]; intros m Hm H.
  - exact H.
  - destruct m as [|a m]; [reflexivity|]. simpl in *.
    apply andb_true_iff in H as [-> H]. apply andb_true_iff in Hm as [_ Hm].
    simpl. auto.
  - destruct m as [|a m]; [reflexivity|]. simpl in *.
    apply andb_true_iff in H as [Ha _]. apply andb_true_iff in Hm as [Hq _].
    unfold not_char in Hq. rewrite Ha in Hq. discriminate.
Qed.

Lemma contains_forward (m : str) (t t' : str) :
  inserted_after q ins t t' -> forallb (not_char q) m = true ->
  contains m t = true -> contains m t' = true.
Proof.
  intros R Hm. induction R as [|c t t' R IH|t t' R IH]; intros H.
  - exact H.
  - cbn [contains] in *. apply orb_true_iff in H as [H|H];
      apply orb_true_iff; [left|right; auto].
    apply (prefix_forward m (c :: t) (c :: t') (ia_keep q ins c t t' R) Hm H).
  - cbn [contains] in *. apply orb_true_iff in H as [H|H];
      apply orb_true_iff; [left|right].
    + apply (prefix_forward m (q :: t) (q :: ins ++ t')
               (ia_ins q ins t t' R) Hm H).
    + apply contains_occurs. apply occurs_app_r. apply contains_occurs. auto.
Qed.

End InsertionFacts.

(** ** The rules as insertions *)

Section RulesAsInsertions.
Import Patcher Rules Lines Insertion.

(** A literal rule inserts its text after some closing parentheses. *)
Lemma literal_inserted_after (r : rule_id) (t : str) :
  literal_facts r -> inserted_after close (inserted r) t (rewrite r t).
Proof.
  intros facts. rewrite rewrite_scan, (lf_find r facts). unfold scan.
  destruct (lf_shape r facts) as (A & EA & _).
  set (F := find_lit (anchor r)). set (repl := fun m => m ++ inserted r).
  enough (G : forall k prev, k <= List.length t ->
            inserted_after close (inserted r) (skipn k t)
              (scan_go F repl k prev t)) by (apply (G 0 None); lia).
  induction t as [|c t IH]; intros k prev Hk.
  - simpl in Hk. assert (k = 0) by lia. subst k. cbn [skipn scan_go].
    unfold F, find_lit. rewrite EA.
    destruct A; cbn [app startswith]; constructor.
  - destruct k as [|k]; [|cbn [skipn scan_go]; apply IH; simpl in Hk; lia].
    cbn [skipn scan_go]. destruct (F prev (c :: t)) as [n|] eqn:Hf.
    + pose proof Hf as Hf'. apply find_lit_firstn in Hf' as [Ea En].
      assert (Hn : n <= List.length (c :: t)).
      { rewrite <- Ea in En. rewrite length_firstn in En. lia. }
      destruct n as [|n].
      { rewrite EA, length_app in En. simpl in En. lia. }
      rewrite <- (firstn_skipn (S n) (c :: t)) at 1.
      rewrite Ea. unfold repl at 1. rewrite EA, <- !app_assoc.
      apply inserted_after_app. cbn [app]. apply ia_ins.
      cbn [skipn]. apply IH. simpl in Hn. lia.
    + apply ia_keep. apply (IH 0). lia.
Qed.

(** When the anchor is found the output has the inserted text. *)
Lemma rewrite_has_inserted (r : rule_id) (t : str) :
  anchor_found r t = true -> occurs (inserted r) (rewrite r t).
Proof.
  rewrite <- (found_anchor r None), rewrite_scan. unfold scan.
  generalize (@None char). induction t as [|c t IH]; intros prev H.
  - simpl in H. cbn [scan_go].
    destruct (anchor_find r prev []) as [n|]; [|discriminate].
    exists (firstn n []), []. now rewrite <- !app_assoc.
  - simpl in H. cbn [scan_go].
    destruct (anchor_find r prev (c :: t)) as [n|].
    + exists (firstn n (c :: t)). eexists. rewrite <- !app_assoc. reflexivity.
    + apply (occurs_app_r _ _ [c]). auto.
Qed.

Lemma marker_in_inserted (r : rule_id) : occurs (marker r) (inserted r).
Proof. apply contains_occurs. destruct r; vm_compute; reflexivity. Qed.

Lemma marker_no_close (r : rule_id) :
  forallb (not_char close) (marker r) = true.
Proof. destruct r; vm_compute; reflexivity. Qed.

(** A rule leaves a text on which it is settled alone, and is settled on
    its own output. *)
Lemma settled_fixed (r : rule_id) (t : str) : settled r t -> apply r t = t.
Proof.
  intros [H|H].
  - unfold apply, guarded. now rewrite H.
  - now apply apply_absent.
Qed.

Lemma settled_after (r : rule_id) (t : str) : settled r (apply r t).
Proof.
  unfold apply, guarded. destruct (contains (marker r) t) eqn:Hm.
  - now left.
  - destruct (anchor_found r t) eqn:Ha.
    + left. apply contains_occurs.
      apply (occurs_trans _ _ _ (marker_in_inserted r)).
      now apply rewrite_has_inserted.
    + right. rewrite rewrite_scan, scan_not_found; [exact Ha|].
      now rewrite found_anchor.
Qed.

End RulesAsInsertions.

(** ** The words matched by the anchors *)

Lemma found_app (find : option char -> str -> option nat)
  (prev : option char) (u v : str) :
  find (last_char prev u) v <> None -> found find prev (u ++ v) = true.
Proof.
  revert prev; induction u as [|c u IH]; intros prev H.
  - simpl in *. destruct v; simpl; destruct (find prev _); congruence.
  - simpl. destruct (find prev (c :: u ++ v)); [reflexivity|]. now apply IH.
Qed.

Lemma space_not_rbrace (c : char) :
  is_space c = true -> not_char rbrace c = true.
Proof.
  intros H. unfold not_char. destruct (N.eqb_spec c rbrace); [subst|reflexivity].
  discriminate.
Qed.

Lemma forallb_space_not_rbrace (t : str) :
  forallb is_space t = true -> forallb (not_char rbrace) t = true.
Proof.
  rewrite !forallb_forall. intros H c Hc. apply space_not_rbrace; auto.
Qed.

Section AnchorWords.
Import Patcher Rules Lines Insertion.

Lemma mount_body :
  body mount_anchor
  = lits mount_head
      ++ Plus (not_char rbrace) :: Lit NL :: Plus is_space
      :: lits mount_log_call ++ [Lit NL; Plus is_space; Lit rbrace].
Proof. reflexivity. Qed.

(** A match of the anchor of rule 1 starts with [const ...] and has one
    closing brace, its last character, which follows white space. *)
Lemma mount_word_shape (w : str) :
  denotes (body mount_anchor) w ->
  startswith (anchor_head Rule1) w = true
  /\ exists x s, w = x ++ [s; rbrace]
                 /\ forallb (not_char rbrace) x = true /\ is_space s = true.
Proof.
  rewrite mount_body. intros D.
  apply denotes_lits in D as (w1 & -> & D). split.
  { change mount_head with (anchor_head Rule1 ++ skipn 2 mount_head).
    rewrite <- app_assoc. apply startswith_app. }
  cbn [denotes] in D.
  destruct D as (c & a & b & -> & Hc & Ha & b1 & -> & c2 & a2 & b2 & ->
                 & Hc2 & Ha2 & D).
  apply denotes_lits in D as (b3 & -> & D). cbn [denotes] in D.
  destruct D as (b4 & -> & c3 & a3 & b5 & -> & Hc3 & Ha3 & b6 & -> & ->).
  assert (Hne : c3 :: a3 <> []) by discriminate.
  destruct (exists_last Hne) as (y & s & Ey).
  assert (Hs : forallb is_space (y ++ [s]) = true).
  { rewrite <- Ey. cbn [forallb]. now rewrite Hc3, Ha3. }
  rewrite forallb_app in Hs. apply andb_true_iff in Hs as [Hy Hs].
  cbn [forallb] in Hs. rewrite andb_true_r in Hs.
  exists (mount_head ++ c :: a ++ NL :: c2 :: a2 ++ mount_log_call ++ NL :: y), s.
  repeat split; [|  |exact Hs].
  - change (c3 :: a3 ++ [rbrace]) with ((c3 :: a3) ++ [rbrace]).
    rewrite Ey. rewrite <- !app_assoc. cbn [app]. rewrite <- !app_assoc.
    cbn [app]. rewrite <- !app_assoc. reflexivity.
  - rewrite forallb_app. apply andb_true_iff. split; [reflexivity|].
    cbn [forallb]. rewrite Hc. rewrite forallb_app, Ha. cbn [forallb andb].
    rewrite (space_not_rbrace _ Hc2).
    rewrite forallb_app, (forallb_space_not_rbrace _ Ha2).
    rewrite forallb_app. cbn [forallb andb].
    rewrite (forallb_space_not_rbrace _ Hy). reflexivity.
Qed.

End AnchorWords.

Section AnchorLanguage.
Import Patcher Rules Lines Insertion.

Lemma anchor_found_lang (r : rule_id) (t : str) :
  anchor_found r t = true
  <-> exists w, anchor_lang r w /\ contains w t = true.
Proof.
  assert (Hlit : forall a, contains a t = true
                   <-> exists w, w = a /\ contains w t = true).
  { intros a. split; [intros H; now exists a|now intros (w & -> & H)]. }
  destruct r; cbn [anchor_found anchor_lang]; try apply Hlit.
  unfold re_search. split.
  - intros H. apply found_true_inv in H as (u & v & n & -> & H).
    unfold match_at in H. cbn [bol mount_anchor andb] in H.
    apply re_match_sound in H as (w & rest & -> & _ & D).
    exists w. split; [exact D|]. apply contains_occurs. now exists u, rest.
  - intros (w & D & H). apply contains_occurs in H as (u & v & ->).
    apply found_app. unfold match_at. cbn [bol mount_anchor andb].
    now apply re_match_complete.
Qed.

Lemma anchor_lang_head (r : rule_id) (w : str) :
  anchor_lang r w -> startswith (anchor_head r) w = true.
Proof.
  destruct r; cbn [anchor_lang anchor_head];
    try (intros ->; rewrite <- (app_nil_r (anchor _)) at 2;
         apply startswith_app).
  intros D. now apply mount_word_shape in D.
Qed.

(** The text a literal rule inserts has a closing brace that follows a
    character other than white space, and none before. *)
Lemma inserted_brace (j : rule_id) :
  j <> Rule1 ->
  exists i1 c i2,
    inserted j = (i1 ++ [c]) ++ rbrace :: i2
    /\ forallb (not_char rbrace) (i1 ++ [c]) = true
    /\ is_space c = false.
Proof.
  intros Hj.
  exists (removelast (upto rbrace (inserted j))),
    (last (upto rbrace (inserted j)) 0%N), (after rbrace (inserted j)).
  destruct j; [congruence|..]; repeat split; vm_compute; reflexivity.
Qed.

(** In a word matched by an earlier anchor, what follows a closing
    parenthesis is not the start of the inserted text. *)
Lemma anchor_lang_clear (k j : rule_id) (w : str) :
  j <> Rule1 -> anchor_lang k w -> follows_clear close (inserted j) w.
Proof.
  intros Hj Hw w1 w2 E Hne.
  assert (Hmount : denotes (body mount_anchor) w ->
            startswith w2 (inserted j) = false
            /\ startswith (inserted j) w2 = false).
  { intros D. apply mount_word_shape in D as (_ & x & s & Ew & Hx & Hs).
    destruct (inserted_brace j Hj) as (i1 & c & i2 & Ei & Hi & Hc).
    (* [w2] ends with white space and the closing brace *)
    assert (Ew2 : exists y, w2 = (y ++ [s]) ++ [rbrace]
                            /\ forallb (not_char rbrace) (y ++ [s]) = true).
    { rewrite E in Ew.
      destruct (exists_last Hne) as (w2' & l & ->).
      change (x ++ [s; rbrace]) with (x ++ [s] ++ [rbrace]) in Ew.
      rewrite app_comm_cons, !app_assoc in Ew.
      apply app_inj_tail in Ew as [Ew ->].
      destruct w2' as [|b w2'] using rev_ind.
      - apply app_inj_tail in Ew as [_ <-]. discriminate Hs.
      - clear IHw2'. rewrite app_comm_cons, app_assoc in Ew.
        apply app_inj_tail in Ew as [Ew ->]. exists w2'. split; [reflexivity|].
        rewrite <- Ew in Hx. rewrite forallb_app in *.
        apply andb_true_iff in Hx as [_ Hx]. cbn [forallb] in Hx.
        apply andb_true_iff in Hx as [_ Hx]. rewrite Hx.
        cbn [forallb]. now rewrite (space_not_rbrace _ Hs). }
    destruct Ew2 as (y & -> & Hy).
    assert (Hrb : not_char rbrace rbrace = false)
      by (unfold not_char; now rewrite N.eqb_refl).
    assert (Hne' : s <> c) by (intros ->; congruence).
    split.
    - destruct (startswith _ (inserted j)) eqn:S; [exfalso|reflexivity].
      apply startswith_inv in S as [z S]. rewrite Ei in S.
      rewrite <- (app_assoc (y ++ [s]) [rbrace] z) in S.
      change ([rbrace] ++ z) with (rbrace :: z) in S.
      apply (run_unique (not_char rbrace)) in S as (S & _); auto.
      apply app_inj_tail in S as [_ S]. congruence.
    - destruct (startswith (inserted j) _) eqn:S; [exfalso|reflexivity].
      apply startswith_inv in S as [z S]. rewrite Ei in S.
      rewrite <- (app_assoc (i1 ++ [c]) (rbrace :: i2) z) in S.
      change ((rbrace :: i2) ++ z) with (rbrace :: i2 ++ z) in S.
      change ((y ++ [s]) ++ [rbrace]) with ((y ++ [s]) ++ rbrace :: []) in S.
      apply (run_unique (not_char rbrace)) in S as (S & _); auto.
      apply app_inj_tail in S as [_ S]. congruence. }
  assert (Hlit : w = anchor k -> k <> Rule1 ->
            startswith w2 (inserted j) = false
            /\ startswith (inserted j) w2 = false).
  { intros -> Hk. destruct (lf_shape k (literal_rule k Hk)) as (A & EA & HA).
    rewrite EA in E. apply last_sep_unique in E as [_ ->]; [|exact HA].
    congruence. }
  destruct k; cbn [anchor_lang] in Hw; auto; apply Hlit; auto; discriminate.
Qed.

End AnchorLanguage.

(** ** Idempotence of the Patcher *)

Section Idempotence.
Import Patcher Rules Lines Insertion.

(** The text inserted by a later rule neither holds nor starts the head
    of an earlier anchor. *)
Lemma overlap_free (k j : rule_id) :
  rule_index k < rule_index j ->
  no_overlap (inserted j) (anchor_head k) = true.
Proof.
  destruct k, j; cbn [rule_index]; intros H;
    first [lia | vm_compute; reflexivity].
Qed.

(** A later rule keeps an earlier rule settled: it neither breaks its
    marker nor brings its anchor about. *)
Lemma settled_kept (k j : rule_id) (t : str) :
  rule_index k < rule_index j -> settled k t -> settled k (apply j t).
Proof.
  intros Hkj Hs.
  assert (Hj : j <> Rule1) by (intros ->; destruct k; simpl in Hkj; lia).
  unfold apply, guarded. destruct (contains (marker j) t); [exact Hs|].
  pose proof (literal_inserted_after j t (literal_rule j Hj)) as R.
  destruct Hs as [Hm|Ha].
  - left.
    exact (contains_forward close (inserted j) _ _ _ R (marker_no_close k) Hm).
  - right. destruct (anchor_found k (rewrite j t)) eqn:E; [exfalso|reflexivity].
    apply anchor_found_lang in E as (w & Lw & Hc).
    assert (Hw : contains w t = true).
    { apply (contains_back close (inserted j) (anchor_head k) w t _ R).
      - now apply overlap_free.
      - now apply anchor_lang_head.
      - now apply (anchor_lang_clear k j).
      - exact Hc. }
    assert (Hf : anchor_found k t = true)
      by (apply anchor_found_lang; now exists w).
    congruence.
Qed.

(** C1. Running the Patcher on its own output changes nothing. *)
Theorem patch_idempotent (t : str) : patch (patch t) = patch t.
Proof.
  rewrite (patch_rules (patch t)). rewrite (patch_rules t).
  unfold all_rules. cbn [fold_left].
  set (t1 := apply Rule1 t). set (t2 := apply Rule2 t1).
  set (t3 := apply Rule3 t2). set (t4 := apply Rule4 t3).
  set (t5 := apply Rule5 t4).
  assert (S1 : settled Rule1 t5).
  { do 4 (apply settled_kept; [cbn; lia|]). apply settled_after. }
  assert (S2 : settled Rule2 t5).
  { do 3 (apply settled_kept; [cbn; lia|]). apply settled_after. }
  assert (S3 : settled Rule3 t5).
  { do 2 (apply settled_kept; [cbn; lia|]). apply settled_after. }
  assert (S4 : settled Rule4 t5).
  { apply settled_kept; [cbn; lia|]. apply settled_after. }
  assert (S5 : settled Rule5 t5) by apply settled_after.
  now rewrite (settled_fixed _ _ S1), (settled_fixed _ _ S2),
    (settled_fixed _ _ S3), (settled_fixed _ _ S4), (settled_fixed _ _ S5).
Qed.

End Idempotence.

(** * Further properties of the two scripts *)

(** ** The Unpatcher only deletes *)

Lemma subseq_skipn (k : nat) (t : str) : subseq (skipn k t) t.
Proof.
  revert k; induction t as [|c t IH]; intros k.
  - rewrite skipn_nil. constructor.
  - destruct k; cbn [skipn]; [apply subseq_refl|apply subseq_skip, IH].
Qed.

Lemma subseq_app_skip (p a b : str) : subseq a b -> subseq a (p ++ b).
Proof. intros H. induction p; simpl; [exact H|now apply subseq_skip]. Qed.

(** A scan that replaces every match by nothing yields a subsequence. *)
Lemma scan_go_remove_subseq (find : option char -> str -> option nat)
  (t : str) :
  forall k prev,
    subseq (scan_go find (fun _ => []) k prev t) (skipn k t).
Proof.
  induction t as [|c t IH]; intros k prev.
  - destruct k; cbn [scan_go skipn]; [|constructor].
    destruct (find prev []); constructor.
  - destruct k as [|k]; cbn [scan_go skipn]; [|apply IH].
    destruct (find prev (c :: t)) as [[|n]|]; cbn [app].
    + apply subseq_keep, (IH 0).
    + apply subseq_skip.
      apply (subseq_trans _ _ _ (IH n (Some c))), subseq_skipn.
    + apply subseq_keep, (IH 0).
Qed.

Lemma re_sub_remove_subseq (pat : pattern) (t : str) :
  subseq (re_sub pat Unpatcher.remove t) t.
Proof. apply (scan_go_remove_subseq (match_at pat) t 0 None). Qed.

Lemma split_nl_nonempty (t : str) : split_nl t <> [].
Proof.
  induction t as [|c t IH]; simpl; [discriminate|].
  destruct (c =? NL)%N; [discriminate|].
  destruct (split_nl t); discriminate.
Qed.

Lemma join_split (t : str) : join_nl (split_nl t) = t.
Proof.
  induction t as [|c t IH]; [reflexivity|].
  cbn [split_nl]. destruct (N.eqb_spec c NL) as [->|Hc].
  - pose proof (split_nl_nonempty t) as Hne.
    destruct (split_nl t) as [|l ls]; [congruence|].
    change (join_nl ([] :: l :: ls)) with ([] ++ NL :: join_nl (l :: ls)).
    now rewrite IH.
  - pose proof (split_nl_nonempty t) as Hne.
    destruct (split_nl t) as [|l ls]; [congruence|].
    rewrite <- IH. destruct ls; reflexivity.
Qed.

Lemma sublines_nil_r (a : list str) : sublines a [] -> a = [].
Proof. intros H. inversion H. reflexivity. Qed.

Lemma join_sublines (a b : list str) :
  sublines a b -> subseq (join_nl a) (join_nl b).
Proof.
  induction 1 as [|l a b H IH|l a b H IH].
  - constructor.
  - destruct b as [|l' b].
    + apply sublines_nil_r in H. subst. apply subseq_nil_l.
    + change (join_nl (l :: l' :: b)) with (l ++ NL :: join_nl (l' :: b)).
      apply subseq_app_skip, subseq_skip, IH.
  - destruct b as [|l' b].
    + apply sublines_nil_r in H. subst. apply subseq_refl.
    + change (join_nl (l :: l' :: b)) with (l ++ NL :: join_nl (l' :: b)).
      destruct a as [|l'' a].
      * apply subseq_app_r.
      * change (join_nl (l :: l'' :: a)) with (l ++ NL :: join_nl (l'' :: a)).
        apply subseq_app; [apply subseq_refl|]. now apply subseq_keep.
Qed.

Section UnpatcherDeletes.
Import Unpatcher Scan.

Lemma run_sublines (k : Z) (ls : list str) :
  sublines (new_lines (run (ScanState k []) ls)) ls.
Proof.
  revert k; induction ls as [|l ls IH]; intros k.
  - constructor.
  - unfold run. cbn [fold_left].
    destruct (scan_step (ScanState k []) l) as [k1 d1] eqn:E.
    fold (run (ScanState k1 d1) ls). rewrite run_out. cbn [new_lines].
    unfold scan_step in E. cbn [skip_until_close new_lines] in E.
    destruct (is_marker l).
    + injection E as <- <-. apply sublines_skip, IH.
    + destruct (k >? 0)%Z.
      * injection E as <- <-. apply sublines_skip, IH.
      * injection E as <- <-. apply sublines_keep, IH.
Qed.

Lemma fallback_scan_sublines (ls : list str) :
  sublines (fallback_scan ls) ls.
Proof. apply run_sublines. Qed.

(** X1. The Unpatcher only deletes: its output is a subsequence of its
    input. *)
Theorem unpatch_deletion_only (t : str) : subseq (unpatch t) t.
Proof.
  unfold unpatch.
  set (c1 := re_sub line_pattern remove t).
  set (c2 := re_sub debug_display_pattern remove c1).
  assert (H2 : subseq c2 t).
  { apply (subseq_trans _ c1); apply re_sub_remove_subseq. }
  destruct (contains length_marker c2); [|exact H2].
  apply (subseq_trans _ c2); [|exact H2].
  rewrite <- (join_split c2) at 2.
  apply join_sublines, fallback_scan_sublines.
Qed.

(** X2. Splitting a text at its newlines and joining the lines with
    newlines gives the text back, so the block scan changes a text only
    through the lines it drops. *)
Theorem split_join_round_trip (t : str) :
  join_nl (split_nl t) = t /\ Forall (fun l => ~ In NL l) (split_nl t).
Proof.
  split; [apply join_split|].
  induction t as [|c t IH]; cbn [split_nl].
  - repeat constructor. auto.
  - destruct (N.eqb_spec c NL) as [->|Hc].
    + constructor; auto.
    + destruct (split_nl t) as [|l ls]; [repeat constructor; simpl; tauto|].
      inversion IH as [|? ? Hl Hls]; subst. constructor; [|exact Hls].
      intros [E|Hin]; [congruence|contradiction].
Qed.

(** X3. The block scan never emits a line that mentions
    [Debug Log Display] or [debugLogs.length], and the lines it emits are
    lines of its input, in their order. *)
Theorem fallback_scan_output (ls : list str) :
  Forall (fun l => is_marker l = false) (fallback_scan ls)
  /\ sublines (fallback_scan ls) ls.
Proof.
  split; [apply fallback_scan_no_marker|apply fallback_scan_sublines].
Qed.

(** X4. Without a marker line the block scan returns its input. *)
Theorem fallback_scan_without_marker (ls : list str) :
  Forall (fun l => is_marker l = false) ls -> fallback_scan ls = ls.
Proof.
  intros H. unfold fallback_scan.
  enough (G : forall out, new_lines (fold_left scan_step ls (ScanState 0 out))
                          = out ++ ls) by apply (G []).
  induction H as [|l ls Hl H IH]; intros out.
  - simpl. now rewrite app_nil_r.
  - cbn [fold_left]. unfold scan_step at 2.
    cbn [skip_until_close new_lines]. rewrite Hl.
    change (0 >? 0)%Z with false. cbv iota.
    rewrite IH, <- app_assoc. reflexivity.
Qed.

Lemma fallback_scan_without_marker_witness :
  fallback_scan [py "<div>"; py "</div>"] = [py "<div>"; py "</div>"].
Proof.
  apply fallback_scan_without_marker. repeat constructor.
Defined.

(** X5. The output of the Unpatcher never mentions
    [debugLogs.length]. *)
Theorem unpatch_removes_length_marker (t : str) :
  contains length_marker (unpatch t) = false.
Proof. apply unpatch_no_length_marker. Qed.

End UnpatcherDeletes.

(** ** What the patterns of the Unpatcher match *)

Section UnpatcherPatterns.
Import Unpatcher Lines.

Lemma display_body :
  exists r, body debug_display_pattern
            = Star is_space :: lits display_comment ++ r.
Proof. eexists. reflexivity. Qed.

(** A match of the display pattern contains the marker comment. *)
Lemma display_match_marker (prev : option char) (t : str) (n : nat) :
  match_at debug_display_pattern prev t = Some n -> occurs display_marker t.
Proof.
  unfold match_at. cbn [bol debug_display_pattern andb].
  intros H. apply re_match_sound in H as (w & rest & -> & _ & D).
  destruct display_body as [r E].
  rewrite E in D. cbn [denotes] in D. destruct D as (a & b & -> & _ & D).
  apply denotes_lits in D as (w' & -> & _).
  apply (occurs_trans _ display_comment).
  - apply contains_occurs. vm_compute. reflexivity.
  - exists a, (w' ++ rest). now rewrite <- !app_assoc.
Qed.

Lemma no_marker_no_display_match (t : str) :
  contains display_marker t = false ->
  re_search debug_display_pattern t = false.
Proof.
  intros H. destruct (re_search debug_display_pattern t) eqn:E; [|reflexivity].
  apply found_true_inv in E as (u & v & n & -> & Hf).
  apply display_match_marker in Hf. apply contains_false in H.
  exfalso. apply H. now apply occurs_app_r.
Qed.

(** X6. A text that mentions none of [addDebugLog(], [Debug Log Display]
    and [debugLogs.length] is returned unchanged by the Unpatcher. *)
Theorem unpatch_identity_without_keywords (t : str) :
  contains call_head t = false ->
  contains display_marker t = false ->
  contains length_marker t = false ->
  unpatch t = t.
Proof.
  intros H1 H2 H3. apply unpatch_clean; auto.
  - now apply no_call_no_line_match.
  - now apply no_marker_no_display_match.
Qed.

Lemma unpatch_identity_without_keywords_witness :
  unpatch (py "setLogs(prev => [...prev, msg])")
  = py "setLogs(prev => [...prev, msg])".
Proof.
  apply unpatch_identity_without_keywords; vm_compute; reflexivity.
Defined.

(** X7. The line-removal pass removes whole lines: a match starts at the
    start of the text or right after a newline, and is made of white
    space, [addDebugLog(], a non-empty argument without [)], [)], white
    space, and a final newline. *)
Theorem line_match_is_whole_lines (prev : option char) (t : str) (n : nat) :
  line_find prev t = Some n ->
  at_line_start prev = true
  /\ exists ws arg sp rest,
       t = (ws ++ call_head ++ arg ++ [close] ++ sp ++ [NL]) ++ rest
       /\ n = List.length (ws ++ call_head ++ arg ++ [close] ++ sp ++ [NL])
       /\ forallb is_space ws = true
       /\ arg <> []
       /\ forallb (not_char close) arg = true
       /\ forallb is_space sp = true.
Proof.
  unfold line_find, match_at. cbn [bol line_pattern andb].
  destruct (at_line_start prev); cbn [negb]; [|discriminate].
  intros H. split; [reflexivity|].
  apply re_match_sound in H as (w & rest & -> & <- & D).
  rewrite line_body in D. cbn [denotes] in D.
  destruct D as (ws & b & -> & Hws & D).
  apply denotes_lits in D as (b1 & -> & D). cbn [denotes] in D.
  destruct D as (c & a & b2 & -> & Hc & Ha & b3 & -> & sp & b4 & -> & Hsp
                 & b5 & -> & ->).
  exists ws, (c :: a), sp, rest. repeat split; auto; try reflexivity.
  - discriminate.
  - cbn [forallb]. change close with (ch ")"). now rewrite Hc, Ha.
Qed.

Lemma line_match_is_whole_lines_witness :
  at_line_start (Some NL) = true
  /\ exists ws arg sp rest,
       py "  addDebugLog(x)" ++ NL :: py "next"
       = (ws ++ call_head ++ arg ++ [close] ++ sp ++ [NL]) ++ rest
       /\ 17 = List.length (ws ++ call_head ++ arg ++ [close] ++ sp ++ [NL])
       /\ forallb is_space ws = true
       /\ arg <> []
       /\ forallb (not_char close) arg = true
       /\ forallb is_space sp = true.
Proof.
  apply (line_match_is_whole_lines (Some NL)). vm_compute. reflexivity.
Defined.

End UnpatcherPatterns.

(** ** What the Patcher leaves behind *)

Section PatcherOutput.
Import Patcher Rules Lines Insertion.

Lemma patch_settled (r : rule_id) (t : str) : settled r (patch t).
Proof.
  rewrite patch_rules. unfold all_rules. cbn [fold_left].
  destruct r.
  - do 4 (apply settled_kept; [cbn; lia|]). apply settled_after.
  - do 3 (apply settled_kept; [cbn; lia|]). apply settled_after.
  - do 2 (apply settled_kept; [cbn; lia|]). apply settled_after.
  - apply settled_kept; [cbn; lia|]. apply settled_after.
  - apply settled_after.
Qed.

(** X8. After the Patcher has run, every rule is settled: its marker is
    in the text, or its anchor is nowhere in it. *)
Theorem patch_settles_every_rule (r : rule_id) (t : str) :
  contains (marker r) (patch t) = true \/ anchor_found r (patch t) = false.
Proof. apply patch_settled. Qed.

(** X9. A rule that finds its anchor leaves its marker in the text. *)
Theorem marker_after_anchor (r : rule_id) (t : str) :
  anchor_found r t = true -> contains (marker r) (apply r t) = true.
Proof.
  intros Ha. destruct (settled_after r t) as [H|H]; [exact H|].
  unfold apply, guarded in *. destruct (contains (marker r) t) eqn:Hm.
  - exact Hm.
  - apply contains_occurs.
    apply (occurs_trans _ _ _ (marker_in_inserted r)).
    now apply rewrite_has_inserted.
Qed.

Lemma marker_after_anchor_witness :
  contains (marker Rule3) (apply Rule3 (py "  " ++ anchor3 ++ nl)) = true.
Proof. apply marker_after_anchor. vm_compute. reflexivity. Defined.

(** X10. The texts the Patcher leaves unchanged are those on which every
    rule is settled. *)
Theorem patch_fixed_points (t : str) :
  patch t = t <-> forall r, settled r t.
Proof.
  split.
  - intros E r. rewrite <- E. apply patch_settled.
  - intros H. rewrite patch_rules. unfold all_rules. cbn [fold_left].
    now rewrite (settled_fixed _ _ (H Rule1)), (settled_fixed _ _ (H Rule2)),
      (settled_fixed _ _ (H Rule3)), (settled_fixed _ _ (H Rule4)),
      (settled_fixed _ _ (H Rule5)).
Qed.

End PatcherOutput.

(** ** The Patcher and the markers of the Unpatcher *)

Section ScanInserts.
Import Insertion.

Variable find : option char -> str -> option nat.
Variable q : char.
Variable ins : str.

Hypothesis find_ends :
  forall prev t n, find prev t = Some n ->
    n <= List.length t /\ exists A, firstn n t = A ++ [q].

(** A scan that re-emits each match, which ends with [q], followed by
    [ins], inserts [ins] after some occurrences of [q]. *)
Lemma scan_inserted_after (t : str) :
  inserted_after q ins t (scan find (fun m => m ++ ins) t).
Proof.
  unfold scan. set (repl := fun m : str => m ++ ins).
  enough (G : forall k prev, k <= List.length t ->
            inserted_after q ins (skipn k t) (scan_go find repl k prev t))
    by (apply (G 0 None); lia).
  induction t as [|c t IH]; intros k prev Hk.
  - simpl in Hk. assert (k = 0) by lia. subst k. cbn [skipn scan_go].
    destruct (find prev []) as [n|] eqn:Hf; [|constructor].
    apply find_ends in Hf as (_ & A & E). rewrite firstn_nil in E.
    destruct A; discriminate.
  - destruct k as [|k]; [|cbn [skipn scan_go]; apply IH; simpl in Hk; lia].
    cbn [skipn scan_go]. destruct (find prev (c :: t)) as [n|] eqn:Hf.
    + apply find_ends in Hf as (Hn & A & E).
      destruct n as [|n]; [destruct A; discriminate|].
      rewrite <- (firstn_skipn (S n) (c :: t)) at 1.
      rewrite E. unfold repl at 1. rewrite <- !app_assoc.
      apply inserted_after_app. cbn [app]. apply ia_ins.
      cbn [skipn]. apply IH. simpl in Hn. lia.
    + apply ia_keep. apply (IH 0). lia.
Qed.

(** A word without [q] has nothing that follows a [q]. *)
Lemma follows_clear_without (m : str) :
  forallb (not_char q) m = true -> follows_clear q ins m.
Proof.
  intros Hm w1 w2 -> _. exfalso.
  apply forallb_not_char in Hm. apply Hm.
  apply in_or_app. right. now left.
Qed.

End ScanInserts.

Section PatcherMarkers.
Import Patcher Unpatcher Rules Lines Insertion.

Lemma rule_inserted_after (r : rule_id) (t : str) :
  inserted_after (end_char r) (inserted r) t (rewrite r t).
Proof.
  rewrite rewrite_scan. apply scan_inserted_after. intros prev t' n H.
  split; [now apply anchor_find_pos in H|].
  destruct r; cbn [anchor_find end_char] in *;
    try (apply find_lit_firstn in H as [-> _];
         match goal with
         | |- exists A, ?a = _ =>
             exists (removelast a); vm_compute; reflexivity
         end).
  unfold match_at in H. cbn [bol mount_anchor andb] in H.
  apply re_match_sound in H as (w & rest & -> & <- & D).
  apply mount_word_shape in D as (_ & x & s & -> & _).
  rewrite firstn_app, Nat.sub_diag, firstn_all. cbn [firstn].
  rewrite app_nil_r. exists (x ++ [s]). now rewrite <- app_assoc.
Qed.

(** A word free of the end characters of the anchors, and apart from the
    inserted texts, is in the output of a rule exactly when it was in
    its input. *)
Lemma apply_keeps_word (m : str) (r : rule_id) (t : str) :
  forallb (not_char (end_char r)) m = true ->
  no_overlap (inserted r) m = true ->
  contains m (apply r t) = contains m t.
Proof.
  intros Hq Hn. unfold apply, guarded.
  destruct (contains (marker r) t); [reflexivity|].
  pose proof (rule_inserted_after r t) as R.
  destruct (contains m t) eqn:E.
  - exact (contains_forward _ _ _ _ _ R Hq E).
  - destruct (contains m (rewrite r t)) eqn:E'; [|reflexivity].
    rewrite <- E. symmetry.
    apply (contains_back _ _ m m _ _ R Hn).
    + rewrite <- (app_nil_r m) at 2. apply startswith_app.
    + now apply follows_clear_without.
    + exact E'.
Qed.

(** X11. The Patcher neither adds nor removes the phrases that make the
    Unpatcher scan for a block: [debugLogs.length] and
    [Debug Log Display] are in its output exactly when they were in its
    input. *)
Theorem patch_keeps_block_markers (t : str) :
  contains length_marker (patch t) = contains length_marker t
  /\ contains display_marker (patch t) = contains display_marker t.
Proof.
  rewrite patch_rules. unfold all_rules. cbn [fold_left].
  split; rewrite !apply_keeps_word; try reflexivity.
Qed.

End PatcherMarkers.

(** ** Statement lines after both scripts *)

Section StatementLines.
Import Patcher Unpatcher Rules Lines.

(** The ordinary lines do not mention [addDebugLog(]. *)
Lemma render_ordinary_no_call (ls : list line) :
  forallb well_formed ls = true ->
  ~ occurs call_head (render (filter is_ordinary ls)).
Proof.
  induction ls as [|l ls IH]; cbn [forallb filter]; intros Hw H.
  - destruct H as (u & v & E). cbn [render flat_map] in E.
    destruct u; discriminate E.
  - apply andb_true_iff in Hw as [Hl Hw].
    destruct l as [i a|x]; cbn [is_ordinary] in H; [now apply IH|].
    change (render (Ordinary x :: filter is_ordinary ls))
      with ((x ++ nl) ++ render (filter is_ordinary ls)) in H.
    rewrite <- app_assoc in H. cbn [nl app] in H.
    apply occurs_sep in H as [H|H].
    + apply well_formed_ordinary in Hl as (_ & _ & Ho). contradiction.
    + now apply IH.
    + vm_compute. intuition discriminate.
Qed.

(** The Patcher keeps a text of statement lines one, with the same
    ordinary lines. *)
Lemma patch_on_lines (ls : list line) :
  forallb well_formed ls = true ->
  apply Rule1 (render ls) = render ls ->
  exists ls', patch (render ls) = render ls'
              /\ forallb well_formed ls' = true
              /\ filter is_ordinary ls' = filter is_ordinary ls.
Proof.
  intros Hw E1. rewrite patch_rules. unfold all_rules. cbn [fold_left].
  rewrite E1.
  destruct (apply_on_lines Rule2 ls ltac:(discriminate) Hw)
    as (l2 & -> & W2 & O2).
  destruct (apply_on_lines Rule3 l2 ltac:(discriminate) W2)
    as (l3 & -> & W3 & O3).
  destruct (apply_on_lines Rule4 l3 ltac:(discriminate) W3)
    as (l4 & -> & W4 & O4).
  destruct (apply_on_lines Rule5 l4 ltac:(discriminate) W4)
    as (l5 & -> & W5 & O5).
  exists l5. repeat split; auto. now rewrite O5, O4, O3, O2.
Qed.

(** X12. On a text of statement lines that rule 1 leaves alone, the
    line-removal pass after the Patcher leaves no [addDebugLog(]: every
    statement inserted by rules 2 to 5 is removed. *)
Theorem line_pass_removes_inserted_calls (ls : list line) :
  forallb well_formed ls = true ->
  apply Rule1 (render ls) = render ls ->
  contains call_head (re_sub line_pattern remove (patch (render ls)))
  = false.
Proof.
  intros Hw E1.
  destruct (patch_on_lines ls Hw E1) as (ls' & -> & Hw' & Ho).
  apply contains_false.
  change (re_sub line_pattern remove (render ls'))
    with (scan_go line_find remove 0 None (render ls')).
  rewrite line_pass_render by auto. now apply render_ordinary_no_call.
Qed.

Lemma line_pass_removes_inserted_calls_witness :
  contains call_head
    (re_sub line_pattern remove
       (patch (render RoundTripSamples.tap_handler)))
  = false.
Proof.
  apply line_pass_removes_inserted_calls; vm_compute; reflexivity.
Defined.

End StatementLines.

(** ** Marker lines in a row, and the anchor of rule 1 *)

Section MarkerRows.
Import Unpatcher Scan.

(** X13. A marker line restarts the count whatever the state of the
    scan: of two marker lines in a row the first changes nothing, so the
    comment line and the [debugLogs.length] line that open the display
    block count as one opening. *)
Theorem consecutive_marker_lines (pre : list str) (m1 m2 : str)
  (rest : list str) :
  is_marker m1 = true -> is_marker m2 = true ->
  fallback_scan (pre ++ m1 :: m2 :: rest) = fallback_scan (pre ++ m2 :: rest).
Proof.
  intros H1 H2. unfold fallback_scan.
  change (fold_left scan_step) with (fun l s => run s l). cbv beta.
  change (m1 :: m2 :: rest) with ([m1] ++ [m2] ++ rest).
  change (m2 :: rest) with ([m2] ++ rest).
  rewrite !run_app.
  change (run (run (run scan_init pre) [m1]) [m2])
    with (scan_step (scan_step (run scan_init pre) m1) m2).
  change (run (run scan_init pre) [m2])
    with (scan_step (run scan_init pre) m2).
  now rewrite (run_marker _ _ H1), !(run_marker _ _ H2).
Qed.

Lemma consecutive_marker_lines_witness :
  fallback_scan
    ([py "<div>"] ++ py "{/* Debug Log Display (iPad用) */}"
       :: py "{debugLogs.length > 0 && (" :: [py ")}"; py "</div>"])
  = fallback_scan
      ([py "<div>"] ++ py "{debugLogs.length > 0 && ("
         :: [py ")}"; py "</div>"]).
Proof.
  apply consecutive_marker_lines; vm_compute; reflexivity.
Defined.

End MarkerRows.

Section MountAnchor.
Import Patcher Rules Insertion.

Lemma nonempty_run (q : char -> bool) (t : str) :
  t <> [] -> forallb q t = true ->
  exists c a, t = c :: a /\ q c = true /\ forallb q a = true.
Proof.
  destruct t as [|c a]; [congruence|]. cbn [forallb]. intros _ H.
  apply andb_true_iff in H as [Hc Ha]. now exists c, a.
Qed.

(** X14. Rule 1 finds its anchor exactly when the text has the helper in
    this form: [const addDebugLog = (msg: string) => {], a non-empty
    stretch without [}], a newline, white space, [console.log(msg)], a
    newline, white space, [}]. *)
Theorem mount_anchor_found_iff (t : str) :
  anchor_found Rule1 t = true
  <-> exists u b ws1 ws2 v,
        t = u ++ (mount_head ++ b ++ NL :: ws1 ++ mount_log_call
                  ++ NL :: ws2 ++ [rbrace]) ++ v
        /\ b <> [] /\ forallb (not_char rbrace) b = true
        /\ ws1 <> [] /\ forallb is_space ws1 = true
        /\ ws2 <> [] /\ forallb is_space ws2 = true.
Proof.
  rewrite anchor_found_lang. cbn [anchor_lang]. split.
  - intros (w & D & H). apply contains_occurs in H as (u & v & ->).
    rewrite mount_body in D.
    apply denotes_lits in D as (w1 & -> & D). cbn [denotes] in D.
    destruct D as (c & a & b & -> & Hc & Ha & b1 & -> & c2 & a2 & b2 & ->
                   & Hc2 & Ha2 & D).
    apply denotes_lits in D as (b3 & -> & D). cbn [denotes] in D.
    destruct D as (b4 & -> & c3 & a3 & b5 & -> & Hc3 & Ha3 & b6 & -> & ->).
    exists u, (c :: a), (c2 :: a2), (c3 :: a3), v.
    repeat split; try discriminate; cbn [forallb];
      rewrite ?Hc, ?Ha, ?Hc2, ?Ha2, ?Hc3, ?Ha3; try reflexivity.
  - intros (u & b & ws1 & ws2 & v & -> & Hb & Fb & H1 & F1 & H2 & F2).
    destruct (nonempty_run _ _ Hb Fb) as (c & a & -> & Hc & Ha).
    destruct (nonempty_run _ _ H1 F1) as (c2 & a2 & -> & Hc2 & Ha2).
    destruct (nonempty_run _ _ H2 F2) as (c3 & a3 & -> & Hc3 & Ha3).
    eexists. split; [|apply contains_occurs; now exists u, v].
    rewrite mount_body. apply denotes_lits. eexists. split; [reflexivity|].
    cbn [denotes]. exists c, a. eexists. split; [reflexivity|].
    repeat split; auto. eexists. split; [reflexivity|].
    exists c2, a2. eexists. split; [reflexivity|]. repeat split; auto.
    apply denotes_lits. eexists. split; [reflexivity|]. cbn [denotes].
    eexists. split; [reflexivity|]. exists c3, a3, [rbrace].
    repeat split; auto. now exists [].
Qed.

End MountAnchor.

(** ** The line-removal pass leaves no match behind *)

Ltac norm_app :=
  repeat first [rewrite <- app_assoc | progress cbn [app]].

Section LinePassIdempotent.
Import Unpatcher Lines LineShape.

(** The texts the pattern matches at a position. *)
Lemma line_denotes_ok (w rest : str) :
  denotes (body line_pattern) w -> line_ok (w ++ rest).
Proof.
  rewrite line_body. cbn [denotes]. intros (ws & b & -> & Hws & D).
  apply denotes_lits in D as (b1 & -> & D). cbn [denotes] in D.
  destruct D as (c & a & b2 & -> & Hc & Ha & b3 & -> & sp & b4 & -> & Hsp
                 & b5 & -> & ->).
  exists ws, (call_head ++ c :: a ++ close :: sp ++ NL :: rest).
  repeat split; auto.
  - norm_app. reflexivity.
  - exists c, (a ++ close :: sp ++ NL :: rest). repeat split; auto.
    exists a, (sp ++ NL :: rest). repeat split; auto. now exists sp, rest.
Qed.

Lemma line_ok_denotes (y : str) :
  line_ok y -> exists w rest, y = w ++ rest /\ denotes (body line_pattern) w.
Proof.
  intros (ws & y1 & -> & Hws & c & y2 & -> & Hc & a & y3 & -> & Ha
          & sp & rest & -> & Hsp).
  exists (ws ++ call_head ++ c :: a ++ close :: sp ++ [NL]), rest. split.
  - norm_app. reflexivity.
  - rewrite line_body. cbn [denotes]. eexists ws, _. split; [reflexivity|].
    split; [exact Hws|]. apply denotes_lits. eexists. split; [reflexivity|].
    cbn [denotes]. exists c, a. eexists. split; [reflexivity|].
    repeat split; auto. eexists. split; [reflexivity|].
    exists sp, [NL]. repeat split; auto. now exists [].
Qed.

Lemma line_find_some (prev : option char) (t : str) (n : nat) :
  line_find prev t = Some n ->
  at_line_start prev = true /\ 0 < n <= List.length t
  /\ line_ok t
  /\ last_char prev (firstn n t) = Some NL.
Proof.
  unfold line_find, match_at. cbn [bol line_pattern andb].
  destruct (at_line_start prev); cbn [negb]; [|discriminate].
  intros H. split; [reflexivity|].
  pose proof (re_match_bound _ _ _ H) as Hb.
  apply re_match_sound in H as (w & rest & -> & <- & D).
  pose proof D as D'. apply (line_denotes_ok w rest) in D'.
  rewrite firstn_app, Nat.sub_diag, firstn_all. cbn [firstn].
  rewrite app_nil_r.
  rewrite line_body in D. cbn [denotes] in D.
  destruct D as (ws & b & -> & _ & D).
  apply denotes_lits in D as (b1 & -> & D). cbn [denotes] in D.
  destruct D as (c & a & b2 & -> & _ & _ & b3 & -> & sp & b4 & -> & _
                 & b5 & -> & ->).
  repeat split; auto.
  - rewrite !length_app. cbn [List.length]. rewrite !length_app.
    cbn [List.length]. lia.
  - replace (ws ++ call_head ++ c :: a ++ ch ")" :: sp ++ [NL])
      with ((ws ++ call_head ++ c :: a ++ ch ")" :: sp) ++ [NL]).
    + apply last_char_snoc.
    + norm_app. reflexivity.
Qed.

Lemma line_find_none (prev : option char) (t : str) :
  line_find prev t = None -> at_line_start prev = true -> ~ line_ok t.
Proof.
  unfold line_find, match_at. cbn [bol line_pattern andb].
  intros H Hp Hok. rewrite Hp in H. cbn [negb] in H.
  apply line_ok_denotes in Hok as (w & rest & -> & D).
  now apply (re_match_complete _ w rest) in D.
Qed.

Lemma line_find_not_start (prev : option char) (t : str) :
  at_line_start prev = false -> line_find prev t = None.
Proof.
  intros H. unfold line_find, match_at. cbn [bol line_pattern andb].
  now rewrite H.
Qed.

(** The equations of the pass. *)
Lemma line_pass_nil (prev : option char) : line_pass prev [] = [].
Proof. unfold line_pass. cbn [scan_go]. now rewrite line_find_nil. Qed.

Lemma line_pass_miss (prev : option char) (c : char) (t : str) :
  line_find prev (c :: t) = None ->
  line_pass prev (c :: t) = c :: line_pass (Some c) t.
Proof. apply scan_go_miss. Qed.

Lemma line_pass_hit (prev : option char) (t : str) (n : nat) :
  line_find prev t = Some n ->
  line_pass prev t = line_pass (Some NL) (skipn n t).
Proof.
  intros H. destruct (line_find_some _ _ _ H) as (_ & Hn & _ & Hl).
  unfold line_pass. rewrite (scan_go_hit _ _ _ _ _ H Hn), Hl. reflexivity.
Qed.

End LinePassIdempotent.

Section LinePassBack.
Import Unpatcher Lines LineShape.

Lemma close_not_space : is_space close = false.
Proof. reflexivity. Qed.

(** Removing later lines does not complete a match: what can be read on
    the output of the pass, phase by phase, could be read on its
    input. *)
Lemma tail_ok_back (t : str) :
  forall prev, at_line_start prev = false ->
    tail_ok (line_pass prev t) -> tail_ok t.
Proof.
  induction t as [|c t IH]; intros prev Hp H.
  - now rewrite line_pass_nil in H.
  - rewrite line_pass_miss in H by now apply line_find_not_start.
    destruct H as (sp & rest & E & Hsp).
    destruct (N.eqb_spec c NL) as [Hc|Hc]; [subst c; now exists [], t|].
    destruct sp as [|d sp]; cbn [app] in E; injection E as Ec E.
    + congruence.
    + subst d. cbn [forallb] in Hsp. apply andb_true_iff in Hsp as [Hd Hsp].
      destruct (IH (Some c)) as (sp' & rest' & -> & Hsp').
      * cbn [at_line_start]. now apply N.eqb_neq.
      * now exists sp, rest.
      * exists (c :: sp'), rest'. cbn [forallb]. now rewrite Hd, Hsp'.
Qed.

Lemma arg_ok_cons (c : char) (t : str) :
  not_char close c = true -> arg_ok t -> arg_ok (c :: t).
Proof.
  intros Hc (arg & rest & -> & Ha & Ht).
  exists (c :: arg), rest. cbn [forallb]. now rewrite Hc, Ha.
Qed.

Lemma line_ok_arg_ok (t : str) : line_ok t -> arg_ok t.
Proof.
  intros (ws & y1 & -> & Hws & c & y2 & -> & Hc & a & y3 & -> & Ha & Ht).
  exists (ws ++ call_head ++ c :: a), y3. repeat split; auto.
  - norm_app. reflexivity.
  - rewrite !forallb_app. cbn [forallb]. rewrite Hc, Ha.
    replace (forallb (not_char close) ws) with true; [reflexivity|].
    symmetry. rewrite forallb_forall in *. intros x Hx.
    specialize (Hws _ Hx). unfold not_char.
    destruct (N.eqb_spec x close); [subst; discriminate|reflexivity].
Qed.

Lemma arg_ok_back (t : str) :
  forall prev, arg_ok (line_pass prev t) -> arg_ok t.
Proof.
  induction t as [|c t IH]; intros prev H.
  - now rewrite line_pass_nil in H.
  - destruct (line_find prev (c :: t)) as [n|] eqn:Hf.
    + apply line_ok_arg_ok. now apply line_find_some in Hf.
    + rewrite (line_pass_miss _ _ _ Hf) in H.
      destruct H as (arg & rest & E & Ha & Ht).
      destruct arg as [|d arg]; cbn [app] in E; injection E as Ec E.
      * subst c. exists [], t. repeat split; auto.
        apply (tail_ok_back t (Some close)); [reflexivity|]. now rewrite E.
      * subst d. cbn [forallb] in Ha. apply andb_true_iff in Ha as [Hd Ha].
        apply arg_ok_cons; [exact Hd|]. apply (IH (Some c)).
        now exists arg, rest.
Qed.

Lemma head_ok_back (h : str) :
  forallb (not_char NL) h = true ->
  forall t prev, at_line_start prev = false ->
    head_ok h (line_pass prev t) -> head_ok h t.
Proof.
  induction h as [|d h IH]; intros Hh t prev Hp H.
  - destruct t as [|c t]; [rewrite line_pass_nil in H|].
    + destruct H as (c & y & E & _). discriminate E.
    + rewrite line_pass_miss in H by now apply line_find_not_start.
      destruct H as (c' & y & E & Hc & Hy). cbn [app] in E.
      injection E as Ec E. subst c'. exists c, t. repeat split; auto.
      apply (arg_ok_back t (Some c)). now rewrite E.
  - cbn [forallb] in Hh. apply andb_true_iff in Hh as [Hd Hh].
    destruct t as [|c t]; [rewrite line_pass_nil in H|].
    + destruct H as (c & y & E & _). discriminate E.
    + rewrite line_pass_miss in H by now apply line_find_not_start.
      destruct H as (c' & y & E & Hc & Hy). cbn [app] in E.
      injection E as Ec E. subst c.
      destruct (IH Hh t (Some d)) as (c2 & y2 & -> & Hc2 & Hy2).
      * cbn [at_line_start]. unfold not_char in Hd.
        now apply negb_true_iff in Hd.
      * now exists c', y.
      * now exists c2, y2.
Qed.

Lemma line_ok_back (t : str) :
  forall prev, line_ok (line_pass prev t) -> line_ok t.
Proof.
  induction t as [|c t IH]; intros prev H.
  - now rewrite line_pass_nil in H.
  - destruct (line_find prev (c :: t)) as [n|] eqn:Hf.
    + now apply line_find_some in Hf.
    + rewrite (line_pass_miss _ _ _ Hf) in H.
      destruct H as (ws & y & E & Hws & Hy).
      destruct ws as [|d ws]; cbn [app] in E.
      * exists [], (c :: t). repeat split; auto.
        subst y. change call_head with (97%N :: skipn 1 call_head) in *.
        destruct Hy as (c' & y' & E & Hc & Hy'). cbn [app] in E.
        injection E as Ec E. subst c.
        destruct (head_ok_back (skipn 1 call_head) eq_refl t (Some 97%N))
          as (c2 & y2 & -> & Hc2 & Hy2); [reflexivity| |].
        -- now exists c', y'.
        -- now exists c2, y2.
      * injection E as Ec E. subst d. cbn [forallb] in Hws.
        apply andb_true_iff in Hws as [Hd Hws].
        destruct (IH (Some c)) as (ws' & y' & -> & Hws' & Hy').
        -- now exists ws, y.
        -- exists (c :: ws'), y'. cbn [forallb]. now rewrite Hd, Hws'.
Qed.

End LinePassBack.

Section LinePassClean.
Import Unpatcher Lines LineShape.

Lemma found_line_start (prev prev' : option char) (t : str) :
  at_line_start prev = at_line_start prev' ->
  found line_find prev t = found line_find prev' t.
Proof.
  intros H. destruct t as [|c t]; cbn [found];
    unfold line_find, match_at; now rewrite H.
Qed.

(** No position of the output of the pass has a match. *)
Lemma line_pass_no_match (t : str) :
  forall prev, found line_find prev (line_pass prev t) = false.
Proof.
  remember (List.length t) as k eqn:Hk. revert t Hk.
  induction k as [k IH] using lt_wf_ind. intros t Hk prev.
  destruct (line_find prev t) as [n|] eqn:Hf.
  - rewrite (line_pass_hit _ _ _ Hf).
    destruct (line_find_some _ _ _ Hf) as (Hp & Hn & _).
    rewrite (found_line_start prev (Some NL)) by now rewrite Hp.
    apply (IH (List.length (skipn n t))); [|reflexivity].
    rewrite length_skipn. lia.
  - destruct t as [|c t];
      [rewrite line_pass_nil; cbn [found]; now rewrite line_find_nil|].
    rewrite (line_pass_miss _ _ _ Hf). cbn [found].
    destruct (line_find prev (c :: line_pass (Some c) t)) as [m|] eqn:Hm.
    + exfalso. destruct (line_find_some _ _ _ Hm) as (Hp & _ & Hok & _).
      rewrite <- (line_pass_miss _ _ _ Hf) in Hok.
      apply line_ok_back in Hok. now apply (line_find_none _ _ Hf Hp).
    + apply (IH (List.length t)); [|reflexivity]. subst k. simpl. lia.
Qed.

(** A word without a newline that is in the output of the pass was in
    its input: the pass removes whole lines. *)
Lemma line_pass_prefix_back (m t : str) :
  forallb (not_char NL) m = true ->
  forall prev, at_line_start prev = false ->
    startswith m (line_pass prev t) = true -> startswith m t = true.
Proof.
  intros Hm. revert m Hm. induction t as [|c t IH]; intros m Hm prev Hp H.
  - now rewrite line_pass_nil in H.
  - rewrite line_pass_miss in H by now apply line_find_not_start.
    destruct m as [|d m]; [reflexivity|]. cbn [startswith forallb] in *.
    apply andb_true_iff in H as [Hd H]. apply andb_true_iff in Hm as [Hn Hm].
    rewrite Hd. cbn [andb]. apply (IH m Hm (Some c)); [|exact H].
    apply N.eqb_eq in Hd. subst d. cbn [at_line_start].
    unfold not_char in Hn. now apply negb_true_iff in Hn.
Qed.

Lemma line_pass_word_back (m t : str) :
  forallb (not_char NL) m = true ->
  forall prev, contains m (line_pass prev t) = true -> contains m t = true.
Proof.
  intros Hm. remember (List.length t) as k eqn:Hk. revert t Hk.
  induction k as [k IH] using lt_wf_ind. intros t Hk prev H.
  destruct (line_find prev t) as [n|] eqn:Hf.
  - rewrite (line_pass_hit _ _ _ Hf) in H.
    destruct (line_find_some _ _ _ Hf) as (_ & Hn & _).
    apply (IH (List.length (skipn n t))) in H; [|rewrite length_skipn; lia
                                                |reflexivity].
    apply contains_occurs. rewrite <- (firstn_skipn n t).
    apply occurs_app_r. now apply contains_occurs.
  - destruct t as [|c t]; [now rewrite line_pass_nil in H|].
    rewrite (line_pass_miss _ _ _ Hf) in H. cbn [contains] in *.
    apply orb_true_iff in H as [H|H]; apply orb_true_iff.
    + left. destruct m as [|d m]; [reflexivity|].
      cbn [startswith forallb] in *.
      apply andb_true_iff in H as [Hd H]. apply andb_true_iff in Hm as [Hn Hm].
      rewrite Hd. cbn [andb].
      apply (line_pass_prefix_back m t Hm (Some c)); [|exact H].
      apply N.eqb_eq in Hd. subst d. cbn [at_line_start].
      unfold not_char in Hn. now apply negb_true_iff in Hn.
    + right. apply (IH (List.length t)) with (prev := Some c); auto.
      subst k. simpl. lia.
Qed.

(** On a text without block markers the Unpatcher is its line-removal
    pass. *)
Lemma unpatch_without_block_markers (t : str) :
  contains display_marker t = false ->
  contains length_marker t = false ->
  unpatch t = re_sub line_pattern remove t
  /\ contains display_marker (unpatch t) = false
  /\ contains length_marker (unpatch t) = false.
Proof.
  intros Hd Hl.
  assert (Hd' : contains display_marker (re_sub line_pattern remove t) = false).
  { destruct (contains display_marker (re_sub line_pattern remove t)) eqn:E;
      [|reflexivity].
    change (re_sub line_pattern remove t) with (line_pass None t) in E.
    apply (line_pass_word_back display_marker t eq_refl None) in E.
    congruence. }
  assert (Hl' : contains length_marker (re_sub line_pattern remove t) = false).
  { destruct (contains length_marker (re_sub line_pattern remove t)) eqn:E;
      [|reflexivity].
    change (re_sub line_pattern remove t) with (line_pass None t) in E.
    apply (line_pass_word_back length_marker t eq_refl None) in E.
    congruence. }
  assert (E : unpatch t = re_sub line_pattern remove t).
  { assert (Ed : re_sub debug_display_pattern remove
                   (re_sub line_pattern remove t)
                 = re_sub line_pattern remove t)
      by (apply scan_not_found, no_marker_no_display_match, Hd').
    unfold unpatch. cbv zeta. now rewrite Ed, Hl'. }
  rewrite E. auto.
Qed.

End LinePassClean.

(** ** Running the Unpatcher twice *)

Section UnpatchTwice.
Import Unpatcher Lines LineShape.

(** C10, amended.  On a text that mentions neither [Debug Log Display]
    nor [debugLogs.length], so that no block removal takes part, a second
    run of the Unpatcher changes nothing: the line-removal pass leaves no
    line of the injected-statement shape behind. *)
Theorem unpatch_idempotent_without_block_markers (t : str) :
  contains display_marker t = false ->
  contains length_marker t = false ->
  unpatch (unpatch t) = unpatch t.
Proof.
  intros Hd Hl.
  destruct (unpatch_without_block_markers t Hd Hl) as (E & Hd' & Hl').
  destruct (unpatch_without_block_markers (unpatch t) Hd' Hl') as (E2 & _).
  rewrite E2, E. apply scan_not_found. apply (line_pass_no_match t None).
Qed.

Lemma unpatch_idempotent_without_block_markers_witness :
  let t := py "  addDebugLog('tap')" ++ nl ++ py "render()" ++ nl in
  unpatch t = py "render()" ++ nl
  /\ unpatch (unpatch t) = unpatch t.
Proof.
  cbv zeta. split; [vm_compute; reflexivity|].
  apply unpatch_idempotent_without_block_markers; vm_compute; reflexivity.
Defined.

End UnpatchTwice.
